(** * Audio-reactive avatar controller: shallow embedding and checked claims

    The component embedded here is the [gdm-live-audio-avatar] element:
    its loudness extractor ([pullLevel]), its morph writers ([applyMorph],
    [lerpMorph]), its blink scheduler ([scheduleNextBlink], [doBlink]), its
    public controls and its per-frame [animate] method.

    JavaScript numbers are idealised as real numbers: every arithmetic
    operation of the source is the exact operation on [R], [Math.sin] is the
    real sine, and no rounding, infinity or NaN exists in the model.  The
    readings of [performance.now()], [Math.random()] and
    [THREE.Clock.getDelta()] are inputs of each step. *)

From Stdlib Require Import Reals Lra.
From Stdlib.Strings Require Import Byte.
From stdpp Require Import gmap strings list.

#[local] Open Scope R_scope.

(** ** three.js helpers used by the component *)

Module MathUtils.

(** [THREE.MathUtils.clamp(value, min, max)] is
    [Math.max(min, Math.min(max, value))]. *)
Definition clamp (value min max : R) : R := Rmax min (Rmin max value).

(** [THREE.MathUtils.lerp(x, y, t)] is [(1 - t) * x + t * y]. *)
Definition lerp (x y t : R) : R := (1 - t) * x + t * y.

End MathUtils.

(** A [THREE.Vector3] (also used for the three angles of a [THREE.Euler]). *)
Record Vector3 := mkVector3 { vx : R; vy : R; vz : R }.

Definition set_vx (a : R) (v : Vector3) : Vector3 := mkVector3 a (vy v) (vz v).
Definition set_vy (a : R) (v : Vector3) : Vector3 := mkVector3 (vx v) a (vz v).
Definition set_vz (a : R) (v : Vector3) : Vector3 := mkVector3 (vx v) (vy v) a.

(** ** JavaScript arrays of numbers

    [morphTargetInfluences] is a plain array: reading a missing index gives
    [undefined], writing past the end extends the array and leaves holes.
    A hole is [None]. *)

Definition array_get (a : list (option R)) (i : nat) : option R :=
  mjoin (a !! i).

Definition array_set (a : list (option R)) (i : nat) (v : R) : list (option R) :=
  if decide (i < length a)%nat
  then <[i := Some v]> a
  else a ++ replicate (i - length a) None ++ [Some v].

(** [a[i] || 0]: [undefined] (and [0]) read as [0]. *)
Definition array_get_or0 (a : list (option R)) (i : nat) : R :=
  default 0 (array_get a i).

(** ** Scene objects *)

(** A [THREE.Object3D] as the component uses it.  The morph dictionary maps a
    channel name to an index of the influences array. *)
Record Object3D := mkObject3D {
  name : string;
  isMesh : bool;
  castShadow : bool;
  receiveShadow : bool;
  morphTargetDictionary : option (gmap string nat);
  morphTargetInfluences : option (list (option R));
  position : Vector3;
  rotation : Vector3;
  scale : Vector3
}.

Definition set_influences (a : list (option R)) (c : Object3D) : Object3D :=
  mkObject3D (name c) (isMesh c) (castShadow c) (receiveShadow c)
    (morphTargetDictionary c) (Some a) (position c) (rotation c) (scale c).

Definition set_position (p : Vector3) (c : Object3D) : Object3D :=
  mkObject3D (name c) (isMesh c) (castShadow c) (receiveShadow c)
    (morphTargetDictionary c) (morphTargetInfluences c) p (rotation c) (scale c).

Definition set_rotation (r : Vector3) (c : Object3D) : Object3D :=
  mkObject3D (name c) (isMesh c) (castShadow c) (receiveShadow c)
    (morphTargetDictionary c) (morphTargetInfluences c) (position c) r (scale c).

Definition set_scale (k : Vector3) (c : Object3D) : Object3D :=
  mkObject3D (name c) (isMesh c) (castShadow c) (receiveShadow c)
    (morphTargetDictionary c) (morphTargetInfluences c) (position c) (rotation c) k.

Definition set_shadows (c : Object3D) : Object3D :=
  mkObject3D (name c) (isMesh c) true true
    (morphTargetDictionary c) (morphTargetInfluences c)
    (position c) (rotation c) (scale c).

(** The avatar is a [THREE.Group]: the list holds the group itself first and
    then its descendants, in the order [traverse] visits them (depth first,
    parents before children).  [headMesh] and [teethMesh] are references into
    that graph; they are positions in the list, so that a write through the
    reference is a write to the node [traverse] visits. *)
Abbreviation Group := (list Object3D).

(** [this.avatar.traverse(cb)] for a callback that only mutates the visited
    node. *)
Definition traverse (cb : Object3D -> Object3D) (g : Group) : Group := cb <$> g.

(** A write through a cached reference. *)
Definition update_node (i : nat) (cb : Object3D -> Object3D) (g : Group) : Group :=
  alter cb i g.

(** [this.avatar.<field> = ...]: the group itself is the first node. *)
Definition update_root (cb : Object3D -> Object3D) (g : Group) : Group :=
  update_node 0 cb g.

(** [getObjectByName(n)]: the first node, in traversal order, with that name. *)
Definition getObjectByName (n : string) (g : Group) : option nat :=
  fst <$> list_find (fun c => name c = n) g.

(** ** Audio analysers *)

(** Modelled from the spec: the [Analyser] class of [./analyser] is not among
    the sources.  Its [data] is the frequency-bin magnitude array, unsigned
    bytes 0-255, or nothing when no analysis data is available; [update()]
    replaces it by the latest snapshot of the stream. *)
Record Analyser := mkAnalyser { data : option (list byte) }.

Definition Analyser_update (snapshot : option (list byte)) (an : Analyser) : Analyser :=
  mkAnalyser snapshot.

Definition byte_value (b : byte) : R := IZR (Z.of_N (Byte.to_N b)).

(** ** Component state *)

Inductive AvatarMode := idle | speak | whisper | dance.

Inductive LogEntry :=
| LogSettingMode (m : AvatarMode)
| LogMorphs (mesh : string) (keys : list string)
| LogMode (m : AvatarMode).

Record State := mkState {
  outputAnalyser : option Analyser;
  inputAnalyser : option Analyser;
  avatar : option Group;
  headMesh : option nat;
  teethMesh : option nat;
  _mode : AvatarMode;
  outLevel : R;
  inLevel : R;
  nextBlinkAt : R;
  blinkT : R;
  dancePhase : R;
  isDancing : bool;
  console : list LogEntry
}.

Definition set_outputAnalyser (a : option Analyser) (s : State) : State :=
  mkState a (inputAnalyser s) (avatar s) (headMesh s) (teethMesh s) (_mode s)
    (outLevel s) (inLevel s) (nextBlinkAt s) (blinkT s) (dancePhase s)
    (isDancing s) (console s).

Definition set_inputAnalyser (a : option Analyser) (s : State) : State :=
  mkState (outputAnalyser s) a (avatar s) (headMesh s) (teethMesh s) (_mode s)
    (outLevel s) (inLevel s) (nextBlinkAt s) (blinkT s) (dancePhase s)
    (isDancing s) (console s).

Definition set_avatar (g : option Group) (s : State) : State :=
  mkState (outputAnalyser s) (inputAnalyser s) g (headMesh s) (teethMesh s)
    (_mode s) (outLevel s) (inLevel s) (nextBlinkAt s) (blinkT s)
    (dancePhase s) (isDancing s) (console s).

Definition set_headMesh (h : option nat) (s : State) : State :=
  mkState (outputAnalyser s) (inputAnalyser s) (avatar s) h (teethMesh s)
    (_mode s) (outLevel s) (inLevel s) (nextBlinkAt s) (blinkT s)
    (dancePhase s) (isDancing s) (console s).

Definition set_teethMesh (h : option nat) (s : State) : State :=
  mkState (outputAnalyser s) (inputAnalyser s) (avatar s) (headMesh s) h
    (_mode s) (outLevel s) (inLevel s) (nextBlinkAt s) (blinkT s)
    (dancePhase s) (isDancing s) (console s).

Definition set_mode (m : AvatarMode) (s : State) : State :=
  mkState (outputAnalyser s) (inputAnalyser s) (avatar s) (headMesh s)
    (teethMesh s) m (outLevel s) (inLevel s) (nextBlinkAt s) (blinkT s)
    (dancePhase s) (isDancing s) (console s).

Definition set_outLevel (l : R) (s : State) : State :=
  mkState (outputAnalyser s) (inputAnalyser s) (avatar s) (headMesh s)
    (teethMesh s) (_mode s) l (inLevel s) (nextBlinkAt s) (blinkT s)
    (dancePhase s) (isDancing s) (console s).

Definition set_inLevel (l : R) (s : State) : State :=
  mkState (outputAnalyser s) (inputAnalyser s) (avatar s) (headMesh s)
    (teethMesh s) (_mode s) (outLevel s) l (nextBlinkAt s) (blinkT s)
    (dancePhase s) (isDancing s) (console s).

Definition set_nextBlinkAt (t : R) (s : State) : State :=
  mkState (outputAnalyser s) (inputAnalyser s) (avatar s) (headMesh s)
    (teethMesh s) (_mode s) (outLevel s) (inLevel s) t (blinkT s)
    (dancePhase s) (isDancing s) (console s).

Definition set_blinkT (t : R) (s : State) : State :=
  mkState (outputAnalyser s) (inputAnalyser s) (avatar s) (headMesh s)
    (teethMesh s) (_mode s) (outLevel s) (inLevel s) (nextBlinkAt s) t
    (dancePhase s) (isDancing s) (console s).

Definition set_dancePhase (p : R) (s : State) : State :=
  mkState (outputAnalyser s) (inputAnalyser s) (avatar s) (headMesh s)
    (teethMesh s) (_mode s) (outLevel s) (inLevel s) (nextBlinkAt s)
    (blinkT s) p (isDancing s) (console s).

Definition set_isDancing (b : bool) (s : State) : State :=
  mkState (outputAnalyser s) (inputAnalyser s) (avatar s) (headMesh s)
    (teethMesh s) (_mode s) (outLevel s) (inLevel s) (nextBlinkAt s)
    (blinkT s) (dancePhase s) b (console s).

Definition console_log (e : LogEntry) (s : State) : State :=
  mkState (outputAnalyser s) (inputAnalyser s) (avatar s) (headMesh s)
    (teethMesh s) (_mode s) (outLevel s) (inLevel s) (nextBlinkAt s)
    (blinkT s) (dancePhase s) (isDancing s) (console s ++ [e]).

(** The field initialisers of the class. *)
Definition initial : State :=
  mkState None None None None None idle 0 0 0 0 0 false [].

(** ** Public controls *)

Definition startSpeaking (s : State) : State := set_mode speak s.
Definition startWhisper (s : State) : State := set_mode whisper s.
Definition startDance (s : State) : State := set_isDancing true (set_mode dance s).
Definition stopDance (s : State) : State :=
  let s := set_isDancing false s in
  match _mode s with
  | dance => set_mode idle s
  | _ => s
  end.
Definition goIdle (s : State) : State := set_isDancing false (set_mode idle s).

(** The [mode] property setter. *)
Definition mode_setter (m : AvatarMode) (s : State) : State :=
  set_mode m (console_log (LogSettingMode m) s).

(** The [outputNode] and [inputNode] setters create a fresh analyser, which
    has no data before its first [update()]. *)
Definition outputNode_setter (s : State) : State :=
  set_outputAnalyser (Some (mkAnalyser None)) s.
Definition inputNode_setter (s : State) : State :=
  set_inputAnalyser (Some (mkAnalyser None)) s.

(** ** Loudness extractor *)

(** The default value of [pullLevel]'s parameter [alpha]. *)
Definition pullLevel_alpha : R := 0.35.

(** [pullLevel(an, prev, alpha)].  [snapshot] is what [an.update()] reads
    from the stream; the result is the analyser after the call and the
    returned level. *)
Definition pullLevel (snapshot : option (list byte)) (an : option Analyser)
    (prev alpha : R) : option Analyser * R :=
  match an with
  | None => (None, prev * 0.95)
  | Some an =>
    let an := Analyser_update snapshot an in
    (Some an,
     match data an with
     | None => prev * 0.95
     | Some [] => prev * 0.95
     | Some d =>
       let sum := foldl (fun sum b => sum + byte_value b) 0 d in
       let v := sum / (INR (length d) * 255) in
       prev * (1 - alpha) + v * alpha
     end)
  end.

(** ** Morph writers *)

#[local] Instance Rle_decision (a b : R) : Decision (a <= b) := Rle_dec a b.
#[local] Instance Rlt_decision (a b : R) : Decision (a < b) := Rlt_dec a b.

(** The callback [applyMorph] passes to [traverse]. *)
Definition applyMorph_child (name : string) (value : R) (child : Object3D) : Object3D :=
  if isMesh child then
    match morphTargetDictionary child, morphTargetInfluences child with
    | Some dict, Some infl =>
      match dict !! name with
      | Some idx =>
        set_influences (array_set infl idx (MathUtils.clamp value 0 1)) child
      | None => child
      end
    | _, _ => child
    end
  else child.

Definition applyMorph (name : string) (value : R) (s : State) : State :=
  match avatar s with
  | None => s
  | Some g => set_avatar (Some (traverse (applyMorph_child name value) g)) s
  end.

(** The default value of [lerpMorph]'s parameter [rate]. *)
Definition lerpMorph_rate : R := 0.15.

(** The callback [lerpMorph] passes to [traverse]. *)
Definition lerpMorph_child (name : string) (to rate : R) (child : Object3D) : Object3D :=
  if isMesh child then
    match morphTargetDictionary child, morphTargetInfluences child with
    | Some dict, Some infl =>
      match dict !! name with
      | Some idx =>
        let cur := array_get_or0 infl idx in
        set_influences
          (array_set infl idx (MathUtils.lerp cur (MathUtils.clamp to 0 1) rate))
          child
      | None => child
      end
    | _, _ => child
    end
  else child.

Definition lerpMorph (name : string) (to rate : R) (s : State) : State :=
  match avatar s with
  | None => s
  | Some g => set_avatar (Some (traverse (lerpMorph_child name to rate) g)) s
  end.

(** ** What a frame reads from its environment *)

(** One field for each read of the environment that [animate] can make, in
    the order the reads happen: the clock delta, the two analyser snapshots,
    then the readings of [performance.now()] (head sway, ear wiggle, mode
    case, [doBlink], [scheduleNextBlink]) and of [Math.random()]. *)
Record Frame := mkFrame {
  clock_delta : R;
  out_fft : option (list byte);
  in_fft : option (list byte);
  now_head : R;
  now_ears : R;
  now_mode : R;
  now_blink : R;
  now_sched : R;
  random : R
}.

(** ** Blink scheduler *)

Definition scheduleNextBlink (now rnd : R) (s : State) : State :=
  set_nextBlinkAt (now + 2000 + rnd * 4000) s.

(** The condition under which [doBlink] starts a blink. *)
Definition blink_fires (now : R) (s : State) : bool :=
  bool_decide (nextBlinkAt s <= now) && bool_decide (blinkT s <= 0).

(** The triangular envelope computed from the blink progress. *)
Definition blink_phase (blinkT : R) : R := 1 - Rabs (1 - Rmax blinkT 0 * 2).

Definition doBlink (io : Frame) (dt : R) (s : State) : State :=
  let now := now_blink io in
  let s :=
    if blink_fires now s
    then scheduleNextBlink (now_sched io) (random io) (set_blinkT 1.0 s)
    else s in
  if bool_decide (0 < blinkT s) then
    let s := set_blinkT (blinkT s - dt * 6) s in
    let phase := blink_phase (blinkT s) in
    let s := applyMorph "eyeBlinkLeft" phase s in
    let s := applyMorph "eyeBlinkRight" phase s in
    applyMorph "eyesClosed" phase s
  else s.

(** ** Loading the avatar *)

(** The last mesh called [n] that the first traversal of [loadAvatar] meets,
    or [acc] (the reference held before) when there is none. *)
Fixpoint last_mesh_named (n : string) (g : Group) (i : nat) (acc : option nat)
  : option nat :=
  match g with
  | [] => acc
  | c :: g =>
    last_mesh_named n g (S i)
      (if isMesh c && bool_decide (name c = n) then Some i else acc)
  end.

(** The debug listing of the second traversal. *)
Definition log_morphs (g : Group) (s : State) : State :=
  foldl (fun s c =>
           if isMesh c then
             match morphTargetDictionary c with
             | Some dict => console_log (LogMorphs (name c) (map_to_list dict).*1) s
             | None => s
             end
           else s) s g.

(** The callback [loadAvatar] hands to the loader, run when the model
    [scene] has arrived. *)
Definition loadAvatar_onLoad (scene : Group) (now rnd : R) (s : State) : State :=
  let g := update_root (set_position (mkVector3 0 0 0)) scene in
  let g := traverse (fun c => if isMesh c then set_shadows c else c) g in
  let s := set_avatar (Some g) s in
  let s := set_headMesh (last_mesh_named "Wolf3D_Head" g 0 (headMesh s)) s in
  let s := set_teethMesh (last_mesh_named "Wolf3D_Teeth" g 0 (teethMesh s)) s in
  let s := log_morphs g s in
  scheduleNextBlink now rnd s.

(** ** Per-frame animation *)

(** How a call of [animate] ends: normally, or by a [TypeError] thrown where
    the source dereferences [morphTargetInfluences!] of a mesh that has none.
    Both carry the component state at that point; the next frame was
    requested at the start of the call in either case. *)
Inductive Outcome :=
| Done (s : State)
| TypeError (s : State).

Definition state_of (o : Outcome) : State :=
  match o with Done s | TypeError s => s end.

(** The two level updates at the head of [animate]. *)
Definition animate_levels (io : Frame) (s : State) : State :=
  let '(an, l) := pullLevel (out_fft io) (outputAnalyser s) (outLevel s) 0.35 in
  let s := set_outLevel l (set_outputAnalyser an s) in
  let '(an, l) := pullLevel (in_fft io) (inputAnalyser s) (inLevel s) 0.35 in
  set_inLevel l (set_inputAnalyser an s).

(** Head sway and the listening tilt. *)
Definition animate_head (io : Frame) (s : State) : State :=
  match avatar s with
  | None => s
  | Some g =>
    let t := now_head io * 0.0015 in
    match headMesh s with
    | None => s
    | Some head =>
      let sway (c : Object3D) :=
        let r := rotation c in
        let r := set_vy (sin (t * 0.6) * 0.03) r in
        let r := set_vx (sin (t * 0.4) * 0.02) r in
        let r := set_vz (MathUtils.lerp (vz r) (inLevel s * 0.1) 0.1) r in
        set_rotation r c in
      set_avatar (Some (update_node head sway g)) s
    end
  end.

(** Ear scale and wiggle. *)
Definition animate_ears (io : Frame) (s : State) : State :=
  match avatar s with
  | None => s
  | Some g =>
    let earScale := 1 + inLevel s * 0.3 in
    let wiggle := sin (now_ears io * 0.006) * inLevel s * 0.25 in
    let earL := getObjectByName "LeftEar" g in
    let earR := getObjectByName "RightEar" g in
    let g :=
      match earL with
      | None => g
      | Some earL =>
        update_node earL (fun c =>
          let c := set_scale (mkVector3 1 (earScale + wiggle) 1) c in
          set_rotation (set_vz (inLevel s * 0.1) (rotation c)) c) g
      end in
    let g :=
      match earR with
      | None => g
      | Some earR =>
        update_node earR (fun c =>
          let c := set_scale (mkVector3 1 (earScale - wiggle) 1) c in
          set_rotation (set_vz (- inLevel s * 0.1) (rotation c)) c) g
      end in
    set_avatar (Some g) s
  end.

(** [if (this.avatar) { ... }] around writes to the group itself. *)
Definition with_avatar_root (cb : Object3D -> Object3D) (s : State) : State :=
  match avatar s with
  | None => s
  | Some g => set_avatar (Some (update_root cb g)) s
  end.

(** The [switch (this._mode)] of [animate]. *)
Definition animate_mode (io : Frame) (dt : R) (s : State) : State :=
  match _mode s with
  | speak =>
    let mouth := MathUtils.clamp (outLevel s * 3.0) 0 1 in
    let s := applyMorph "mouthOpen" mouth s in
    lerpMorph "mouthSmile" mouth lerpMorph_rate s
  | whisper =>
    let mouth := MathUtils.clamp (outLevel s * 1.2) 0 0.4 in
    let s := applyMorph "mouthOpen" mouth s in
    let s := lerpMorph "mouthSmile" 0.15 0.08 s in
    let lean := 0.04 + outLevel s * 0.05 in
    with_avatar_root (fun c =>
      let c := set_position
                 (set_vy (MathUtils.lerp (vy (position c)) lean 0.08) (position c)) c in
      set_rotation
        (set_vx (MathUtils.lerp (vx (rotation c)) (-0.03) 0.08) (rotation c)) c) s
  | dance =>
    let s := set_isDancing true s in
    let t := now_mode io * 0.001 in
    let s := set_dancePhase (dancePhase s + dt) s in
    let s :=
      with_avatar_root (fun c =>
        let c := set_position (set_vy (sin (t * 4) * 0.05 + 0.02) (position c)) c in
        let c := set_rotation (set_vy (sin (t * 2) * 0.25) (rotation c)) c in
        set_rotation (set_vz (sin (t * 3.2) * 0.07) (rotation c)) c) s in
    let mouth := MathUtils.clamp (outLevel s * 2.5) 0 1 in
    let s := applyMorph "mouthOpen" mouth s in
    lerpMorph "mouthSmile" (0.25 + outLevel s * 0.3) 0.15 s
  | idle =>
    let t := now_mode io * 0.001 in
    let idleMouth := (sin (t * 0.9) + 1) * 0.05 in
    let s := lerpMorph "mouthOpen" idleMouth 0.1 s in
    with_avatar_root (fun c =>
      let c := set_position (set_vy (sin (t * 1.2) * 0.015) (position c)) c in
      let c := set_rotation (set_vy (sin (t * 0.6) * 0.05) (rotation c)) c in
      set_rotation (set_vx (sin (t * 0.4) * 0.03) (rotation c)) c) s
  end.

(** The teeth follow the head's [mouthOpen]; [None] is the [TypeError] of a
    [morphTargetInfluences!] that is undefined. *)
Definition animate_teeth (s : State) : option State :=
  match teethMesh s, headMesh s, avatar s with
  | Some teeth, Some head, Some g =>
    match g !! head, g !! teeth with
    | Some headObj, Some teethObj =>
      match morphTargetDictionary headObj ≫= (fun dict => dict !! "mouthOpen") with
      | None => Some s
      | Some idx =>
        match morphTargetInfluences headObj with
        | None => None
        | Some infl =>
          let v := array_get_or0 infl idx in
          match morphTargetInfluences teethObj with
          | None => None
          | Some tinfl =>
            Some (set_avatar
                    (Some (update_node teeth (set_influences (array_set tinfl idx v)) g))
                    s)
          end
        end
      end
    | _, _ => Some s
    end
  | _, _, _ => Some s
  end.

(** [animate] up to the point where the teeth follow the head: the level
    updates, head and ear pose, the smile baseline, the log line and the mode
    case. *)
Definition animate_pose (io : Frame) (s : State) : State :=
  let s := animate_levels io s in
  let s := animate_head io s in
  let s := lerpMorph "mouthSmile" 0 0.12 s in
  let s := animate_ears io s in
  let s := console_log (LogMode (_mode s)) s in
  animate_mode io (clock_delta io) s.

Definition animate (io : Frame) (s : State) : Outcome :=
  let dt := clock_delta io in
  let s := animate_pose io s in
  match animate_teeth s with
  | None => TypeError s
  | Some s => Done (doBlink io dt s)
  end.

(** ** The component as a reactive system *)

(** What can happen to the component: a frame callback, the arrival of the
    model, a setter or a public control. *)
Inductive Event :=
| EvAnimate (io : Frame)
| EvLoaded (scene : Group) (now rnd : R)
| EvOutputNode
| EvInputNode
| EvMode (m : AvatarMode)
| EvStartSpeaking
| EvStartWhisper
| EvStartDance
| EvStopDance
| EvGoIdle.

Definition step (e : Event) (s : State) : State :=
  match e with
  | EvAnimate io => state_of (animate io s)
  | EvLoaded scene now rnd => loadAvatar_onLoad scene now rnd s
  | EvOutputNode => outputNode_setter s
  | EvInputNode => inputNode_setter s
  | EvMode m => mode_setter m s
  | EvStartSpeaking => startSpeaking s
  | EvStartWhisper => startWhisper s
  | EvStartDance => startDance s
  | EvStopDance => stopDance s
  | EvGoIdle => goIdle s
  end.

Definition run (es : list Event) (s : State) : State :=
  foldl (fun s e => step e s) s es.

(** ** Observations used to state the properties *)

(** The mean magnitude of a snapshot, as the specification words it: the sum
    of the bins divided by their number. *)
Definition sum_magnitudes (d : list byte) : R :=
  foldr (fun b acc => byte_value b + acc) 0 d.

Definition mean_magnitude (d : list byte) : R :=
  sum_magnitudes d / INR (length d).

(** The smoothed levels after a list of frames. *)
Definition frames (ios : list Frame) : list Event := EvAnimate <$> ios.

(** A frame on which the output channel has no analysis data. *)
Definition out_silent (io : Frame) : Prop :=
  out_fft io = None \/ out_fft io = Some [].

(** The value of morph channel [n] on a node: the influence at the index the
    node's dictionary gives to [n]; [None] when the node has no such channel
    or the array has nothing there. *)
Definition morph_value (n : string) (c : Object3D) : option R :=
  dict ← morphTargetDictionary c;
  infl ← morphTargetInfluences c;
  idx ← dict !! n;
  array_get infl idx.

(** The same, for the node at position [i] of the loaded avatar. *)
Definition channel (n : string) (i : nat) (s : State) : option R :=
  g ← avatar s; c ← g !! i; morph_value n c.

(** ** Auxiliary views of the methods *)

(** A method that writes nothing but the scene graph. *)
Definition scene_only (f : State -> State) : Prop :=
  forall s, exists g, f s = set_avatar g s.

(** The part of the state outside the scene graph. *)
Definition controls (s : State) : State := set_avatar None s.

(** What the mode case writes outside the scene graph. *)
Definition animate_mode_controls (dt : R) (s : State) : State :=
  match _mode s with
  | dance => set_dancePhase (dancePhase s + dt) (set_isDancing true s)
  | _ => s
  end.

(** What [doBlink] writes outside the scene graph. *)
Definition doBlink_controls (io : Frame) (dt : R) (s : State) : State :=
  let s :=
    if blink_fires (now_blink io) s
    then scheduleNextBlink (now_sched io) (random io) (set_blinkT 1.0 s)
    else s in
  if bool_decide (0 < blinkT s) then set_blinkT (blinkT s - dt * 6) s else s.

(** ** Nodes of the loaded avatar *)

(** The node at position [i] of the avatar, when there is one. *)
Definition node (i : nat) (s : State) : option Object3D :=
  g ← avatar s; g !! i.

(** What the morph writers read and write on a node. *)
Definition morphs (c : Object3D)
  : bool * option (gmap string nat) * option (list (option R)) :=
  (isMesh c, morphTargetDictionary c, morphTargetInfluences c).

(** What the morph writers only read. *)
Definition rig (c : Object3D) : bool * option (gmap string nat) :=
  (isMesh c, morphTargetDictionary c).

(** Channel [n] is in the dictionary of no mesh of the avatar. *)
Definition channel_absent (n : string) (s : State) : Prop :=
  forall i c dict,
    node i s = Some c -> isMesh c = true ->
    morphTargetDictionary c = Some dict -> dict !! n = None.

(** Node [i] of the avatar carries the morph data of [c]. *)
Definition tracked (i : nat) (s : State) (c : Object3D) : Prop :=
  exists c0, node i s = Some c0 /\ morphs c0 = morphs c.

(** A mesh on which the morph writers act, with its dictionary. *)
Definition morph_mesh (c : Object3D) (dict : gmap string nat) : Prop :=
  isMesh c = true /\ morphTargetDictionary c = Some dict
  /\ is_Some (morphTargetInfluences c).

(** Node callbacks that leave the morph data, or the rig, of a node alone. *)
Definition keeps_morphs (F : Object3D -> Object3D) : Prop :=
  forall c, morphs (F c) = morphs c.

Definition keeps_rig (F : Object3D -> Object3D) : Prop :=
  forall c, rig (F c) = rig c.


(** The state after the firing decision at the head of [doBlink]. *)
Definition doBlink_fired (io : Frame) (s : State) : State :=
  if blink_fires (now_blink io) s
  then scheduleNextBlink (now_sched io) (random io) (set_blinkT 1.0 s)
  else s.

(** What [doBlink] does to the morph data of one node. *)
Definition doBlink_child (io : Frame) (dt : R) (s : State) (c : Object3D) : Object3D :=
  let s1 := doBlink_fired io s in
  if bool_decide (0 < blinkT s1) then
    let phase := blink_phase (blinkT s1 - dt * 6) in
    applyMorph_child "eyesClosed" phase
      (applyMorph_child "eyeBlinkRight" phase
         (applyMorph_child "eyeBlinkLeft" phase c))
  else c.

(** Distinct channel names of a dictionary have distinct indices, as in the
    dictionaries three.js builds from the morph target names of a mesh. *)
Definition dict_injective (dict : gmap string nat) : Prop :=
  forall n1 n2 k, dict !! n1 = Some k -> dict !! n2 = Some k -> n1 = n2.

(** Node [i] of [s'] is node [i] of [s] with the same rig. *)
Definition rig_step (i : nat) (s s' : State) : Prop :=
  exists F, node i s' = F <$> node i s /\ keeps_rig F.

(** ** Observations on the blink scheduler *)

(** [doBlink] called on successive frames. *)
Definition blink_run (ios : list Frame) (s : State) : State :=
  foldl (fun s io => doBlink io (clock_delta io) s) s ios.

(** The time the frames take, in seconds. *)
Definition total_delta (ios : list Frame) : R :=
  foldr (fun io acc => clock_delta io + acc) 0 ios.

(** The clock delta of a frame event is not negative. *)
Definition nonneg_delta (e : Event) : Prop :=
  match e with
  | EvAnimate io => 0 <= clock_delta io
  | _ => True
  end.







(** A frame with another clock delta. *)
Definition with_delta (dt : R) (io : Frame) : Frame :=
  mkFrame dt (out_fft io) (in_fft io) (now_head io) (now_ears io)
    (now_mode io) (now_blink io) (now_sched io) (random io).

(** The first frame of a component: [THREE.Clock.getDelta()] starts the clock
    on its first call and returns 0; no analyser is connected yet. *)
Definition first_frame : Frame := mkFrame 0 None None 16 16 16 16 16 0.5.

(** Two frames seven seconds apart, as when the page was in the background:
    the first takes 200ms, the second comes 7000ms later. *)
Definition slow_frames : list Event :=
  [ EvAnimate (mkFrame 0.2 None None 0 0 0 0 0 0.5);
    EvAnimate (mkFrame 7 None None 7000 7000 7000 7000 7000 0.5) ].

(** ** Observations on the pose *)

(** The transform of a node. *)
Definition pose (c : Object3D) : Vector3 * Vector3 * Vector3 :=
  (position c, rotation c, scale c).

Definition keeps_pose (F : Object3D -> Object3D) : Prop :=
  forall c, pose (F c) = pose c.

(** A scene of one node, the group itself. *)
Definition bare_group : Object3D :=
  mkObject3D "Scene" false false false None None
    (mkVector3 0 0 0) (mkVector3 0 0 0) (mkVector3 1 1 1).

(** The component after that scene has loaded and [startDance()] was called. *)
Definition dance_state : State :=
  mkState None None (Some [bare_group]) None None dance 0 0 4000 0 0 true [].

(** Two frames with the same clock delta at different times. *)
Definition dance_frame_a : Frame := mkFrame 0.016 None None 0 0 0 0 0 0.5.
Definition dance_frame_b : Frame := mkFrame 0.016 None None 250 250 250 250 250 0.5.

(** A head mesh with the two mouth channels, under the group. *)
Definition mouth_dict : gmap string nat :=
  {[ "mouthOpen"%string := 0%nat; "mouthSmile"%string := 1%nat ]}.

Definition head_mesh : Object3D :=
  mkObject3D "Wolf3D_Head" true true true (Some mouth_dict)
    (Some [Some 0; Some 0])
    (mkVector3 0 0 0) (mkVector3 0 0 0) (mkVector3 1 1 1).

Definition head_state (m : AvatarMode) : State :=
  mkState None None (Some [bare_group; head_mesh]) (Some 1%nat) None m
    0 0 4000 0 0 false [].

(** An output analyser is connected, then a frame with a loud snapshot. *)
Definition loud_events : list Event :=
  [ EvOutputNode;
    EvAnimate (mkFrame 0.016 (Some [xff; xff; x80; x00]) None 16 16 16 16 16 0.5) ].

(** Two frames of a tenth of a second. *)
Definition tenth_frames : list Frame :=
  [ mkFrame 0.1 None None 100 100 100 100 100 0.5;
    mkFrame 0.1 None None 200 200 200 200 200 0.5 ].

(** ** Further observations on the component *)

(** Events that are neither a public control nor the [mode] setter. *)
Definition not_a_control (e : Event) : bool :=
  match e with
  | EvAnimate _ | EvLoaded _ _ _ | EvOutputNode | EvInputNode => true
  | _ => false
  end.

(** A frame whose output snapshot is the buffer [d]. *)
Definition out_snapshot_is (d : list byte) (io : Frame) : Prop :=
  out_fft io = Some d.

(** Every number held by an influences array is in [0, 1]. *)
Definition unit_influences (a : list (option R)) : Prop :=
  Forall (fun o => forall x, o = Some x -> 0 <= x <= 1) a.

Definition influences_ok (c : Object3D) : Prop :=
  forall a, morphTargetInfluences c = Some a -> unit_influences a.

(** The same for every node of the loaded avatar. *)
Definition scene_ok (s : State) : Prop :=
  forall i c, node i s = Some c -> influences_ok c.

(** A model arriving with influences in [0, 1]. *)
Definition load_ok (e : Event) : Prop :=
  match e with
  | EvLoaded scene _ _ => Forall influences_ok scene
  | _ => True
  end.

(** A frame whose output snapshot is a loud bin and a silent one. *)
Definition loud_frame : Frame :=
  mkFrame 0.016 (Some [xff; x00]) None 16 16 16 16 16 0.5.

(** Node by node, [s'] holds the scene of [s] after a callback that keeps
    influences in [0, 1]. *)
Definition ok_step (s s' : State) : Prop :=
  forall i, exists F,
    node i s' = F <$> node i s /\
    forall c, influences_ok c -> influences_ok (F c).

(** The model with the head mesh arrives, then two frames. *)
Definition load_then_frames : list Event :=
  EvLoaded [bare_group; head_mesh] 0 0.5 :: slow_frames.

(** The channels [doBlink] writes. *)
Definition eyelid_channel (n : string) : Prop :=
  n = "eyeBlinkLeft"%string \/ n = "eyeBlinkRight"%string \/ n = "eyesClosed"%string.

(** A mesh with two eyelid channels. *)
Definition eyelid_dict : gmap string nat :=
  {[ "eyeBlinkLeft"%string := 0%nat; "eyesClosed"%string := 1%nat ]}.

Definition eyelid_mesh : Object3D :=
  mkObject3D "Wolf3D_Head" true true true (Some eyelid_dict)
    (Some [Some 0; Some 0])
    (mkVector3 0 0 0) (mkVector3 0 0 0) (mkVector3 1 1 1).

(** A component with that mesh, before its first blink. *)
Definition eyelid_state : State :=
  mkState None None (Some [bare_group; eyelid_mesh]) (Some 1%nat) None idle
    0 0 0 0 0 false [].

(** ** The exception of the teeth follower *)

Definition has_influences (c : Object3D) : bool :=
  match morphTargetInfluences c with
  | Some _ => true
  | None => false
  end.

(** What decides whether the teeth follower throws, on one node. *)
Definition shape (c : Object3D) : option (gmap string nat) * bool :=
  (morphTargetDictionary c, has_influences c).

Definition shape_step (i : nat) (s s' : State) : Prop :=
  exists F, node i s' = F <$> node i s /\ forall c, shape (F c) = shape c.

(** Head and teeth meshes were found, the head has a [mouthOpen] channel, and
    the head or the teeth have no influences array. *)
Definition teeth_throw (s : State) : Prop :=
  exists t h tc hc dict idx,
    teethMesh s = Some t /\ headMesh s = Some h /\
    node h s = Some hc /\ node t s = Some tc /\
    morphTargetDictionary hc = Some dict /\
    dict !! "mouthOpen" = Some idx /\
    (has_influences hc = false \/ has_influences tc = false).

(** A teeth mesh without morph targets, and a component whose avatar has it. *)
Definition bare_teeth : Object3D :=
  mkObject3D "Wolf3D_Teeth" true true true None None
    (mkVector3 0 0 0) (mkVector3 0 0 0) (mkVector3 1 1 1).

Definition bare_teeth_state : State :=
  mkState None None (Some [bare_group; head_mesh; bare_teeth])
    (Some 1%nat) (Some 2%nat) idle 0 0 4000 0 0 false [].

(** ** Observations on loading *)





(** * The session component ([gdm-live-audio], [index.tsx])

    The part of the component that schedules the model's audio, drives the
    avatar's mode and keeps the recording flags and the status line.  The
    network session, the audio graph and the microphone are outside: what
    they deliver (messages, decoded durations, [ended] events, the grant or
    denial of the microphone) arrives as events. *)

(** The state of an avatar element that was just created. *)
Definition avatar_created : State := initial.

Module Live.

(** One call of [source.start(when)] for a decoded chunk of [duration]
    seconds. *)
Record Chunk := mkChunk { source : nat; when : R; duration : R }.

Record LiveAudio := mkLive {
  isRecording : bool;
  status : string;
  error : string;
  inputAudioContext : bool;
  nextStartTime : R;
  mediaStream : bool;
  sourceNode : bool;
  scriptProcessorNode : bool;
  sources : gset nat;
  avatar : option State;
  started : list Chunk
}.

Definition set_isRecording (b : bool) (l : LiveAudio) : LiveAudio :=
  mkLive b (status l) (error l) (inputAudioContext l) (nextStartTime l)
    (mediaStream l) (sourceNode l) (scriptProcessorNode l) (sources l)
    (avatar l) (started l).

Definition set_nextStartTime (t : R) (l : LiveAudio) : LiveAudio :=
  mkLive (isRecording l) (status l) (error l) (inputAudioContext l) t
    (mediaStream l) (sourceNode l) (scriptProcessorNode l) (sources l)
    (avatar l) (started l).

Definition set_mediaStream (b : bool) (l : LiveAudio) : LiveAudio :=
  mkLive (isRecording l) (status l) (error l) (inputAudioContext l)
    (nextStartTime l) b (sourceNode l) (scriptProcessorNode l) (sources l)
    (avatar l) (started l).

Definition set_nodes (src proc : bool) (l : LiveAudio) : LiveAudio :=
  mkLive (isRecording l) (status l) (error l) (inputAudioContext l)
    (nextStartTime l) (mediaStream l) src proc (sources l)
    (avatar l) (started l).

Definition set_sources (ss : gset nat) (l : LiveAudio) : LiveAudio :=
  mkLive (isRecording l) (status l) (error l) (inputAudioContext l)
    (nextStartTime l) (mediaStream l) (sourceNode l) (scriptProcessorNode l) ss
    (avatar l) (started l).

Definition set_avatar (a : option State) (l : LiveAudio) : LiveAudio :=
  mkLive (isRecording l) (status l) (error l) (inputAudioContext l)
    (nextStartTime l) (mediaStream l) (sourceNode l) (scriptProcessorNode l)
    (sources l) a (started l).

Definition log_start (c : Chunk) (l : LiveAudio) : LiveAudio :=
  mkLive (isRecording l) (status l) (error l) (inputAudioContext l)
    (nextStartTime l) (mediaStream l) (sourceNode l) (scriptProcessorNode l)
    (sources l) (avatar l) (started l ++ [c]).

Definition updateStatus (msg : string) (l : LiveAudio) : LiveAudio :=
  mkLive (isRecording l) msg (error l) (inputAudioContext l)
    (nextStartTime l) (mediaStream l) (sourceNode l) (scriptProcessorNode l)
    (sources l) (avatar l) (started l).

Definition updateError (msg : string) (l : LiveAudio) : LiveAudio :=
  mkLive (isRecording l) (status l) msg (inputAudioContext l)
    (nextStartTime l) (mediaStream l) (sourceNode l) (scriptProcessorNode l)
    (sources l) (avatar l) (started l).

(** The field initialisers; the avatar element is not there before the first
    render. *)
Definition initial : LiveAudio :=
  mkLive false "" "" true 0 false false false ∅ None [].

(** How a handler ends: normally, or by the [TypeError] of a call on an
    avatar that is not there. *)
Inductive Result :=
| Ok (l : LiveAudio)
| Throws (l : LiveAudio).

Definition state_of (r : Result) : LiveAudio :=
  match r with Ok l | Throws l => l end.

(** [this.avatar.m()] *)
Definition avatar_call (m : State -> State) (l : LiveAudio) : Result :=
  match avatar l with
  | Some a => Ok (set_avatar (Some (m a)) l)
  | None => Throws l
  end.

(** [this.avatar?.m()] *)
Definition avatar_call_opt (m : State -> State) (l : LiveAudio) : LiveAudio :=
  match avatar l with
  | Some a => set_avatar (Some (m a)) l
  | None => l
  end.

(** [onmessage], a message with audio, up to [await decodeAudioData(...)];
    [currentTime] is the clock of the output audio context. *)
Definition onmessage_audio (currentTime : R) (l : LiveAudio) : Result :=
  match avatar_call startSpeaking l with
  | Throws l => Throws l
  | Ok l => Ok (set_nextStartTime (Rmax (nextStartTime l) currentTime) l)
  end.

(** The [interrupted] part of [onmessage]. *)
Definition onmessage_interrupted (interrupted : bool) (l : LiveAudio) : Result :=
  if interrupted then
    let l := set_sources ∅ l in
    let l := set_nextStartTime 0 l in
    avatar_call goIdle l
  else Ok l.

(** [onmessage] after the await: the decoded buffer lasts [d] seconds and
    [src] is the buffer source created for it. *)
Definition onmessage_decoded (src : nat) (d : R) (interrupted : bool)
    (l : LiveAudio) : Result :=
  let l := log_start (mkChunk src (nextStartTime l) d) l in
  let l := set_nextStartTime (nextStartTime l + d) l in
  let l := set_sources ({[src]} ∪ sources l) l in
  onmessage_interrupted interrupted l.

(** The [ended] listener of a source. *)
Definition source_ended (src : nat) (l : LiveAudio) : Result :=
  let l := set_sources (sources l ∖ {[src]}) l in
  if bool_decide (size (sources l) = 0%nat) then avatar_call goIdle l else Ok l.

Definition onopen (l : LiveAudio) : LiveAudio := updateStatus "Opened" l.

Definition onerror (message : string) (l : LiveAudio) : Result :=
  avatar_call goIdle (updateError message l).

Definition onclose (reason : string) (l : LiveAudio) : Result :=
  avatar_call goIdle (updateStatus ("Close:" ++ reason) l).

Definition stopRecording (l : LiveAudio) : LiveAudio :=
  if negb (isRecording l) && negb (mediaStream l) && negb (inputAudioContext l)
  then l
  else
    let l := updateStatus "Stopping recording..." l in
    let l := set_isRecording false l in
    let l := set_nodes false false l in
    let l := if mediaStream l then set_mediaStream false l else l in
    let l := updateStatus "Recording stopped. Click Start to begin again." l in
    avatar_call_opt goIdle l.

(** [startRecording] up to [await getUserMedia(...)]; [None] when the call
    returns at once because a recording is on. *)
Definition startRecording (l : LiveAudio) : option LiveAudio :=
  if isRecording l then None
  else Some (updateStatus "Requesting microphone access..." l).

(** The status shown while recording: a red circle, as its UTF-8 bytes. *)
Definition recording_mark : string :=
  String (Ascii.ascii_of_nat 240)
    (String (Ascii.ascii_of_nat 159)
       (String (Ascii.ascii_of_nat 148)
          (String (Ascii.ascii_of_nat 180) EmptyString))).

(** [startRecording] after the await, when the microphone was granted. *)
Definition startRecording_granted (l : LiveAudio) : LiveAudio :=
  let l := set_mediaStream true l in
  let l := updateStatus "Microphone access granted. Starting capture..." l in
  let l := set_nodes true true l in
  let l := set_isRecording true l in
  updateStatus recording_mark l.

(** [startRecording] after the await, when [getUserMedia] rejected with an
    error whose message is [message]. *)
Definition startRecording_denied (message : string) (l : LiveAudio) : LiveAudio :=
  let l := updateStatus ("Error: " ++ message) l in
  stopRecording l.

(** [reset], as far as the component's own state goes. *)
Definition reset (l : LiveAudio) : LiveAudio :=
  avatar_call_opt goIdle (updateStatus "Session cleared." l).

(** The first render creates the avatar element. *)
Definition rendered (l : LiveAudio) : LiveAudio :=
  match avatar l with
  | Some _ => l
  | None => set_avatar (Some avatar_created) l
  end.

(** The text of the status line: [this.error || this.status]. *)
Definition status_line (l : LiveAudio) : string :=
  if bool_decide (error l = "") then status l else error l.

Inductive Event :=
| EvRendered
| EvOpen
| EvAudio (currentTime : R)
| EvDecoded (src : nat) (d : R) (interrupted : bool)
| EvMessage (interrupted : bool)
| EvEnded (src : nat)
| EvError (message : string)
| EvClose (reason : string)
| EvStart
| EvGranted
| EvDenied (message : string)
| EvStop
| EvReset.

Definition step (e : Event) (l : LiveAudio) : LiveAudio :=
  match e with
  | EvRendered => rendered l
  | EvOpen => onopen l
  | EvAudio t => state_of (onmessage_audio t l)
  | EvDecoded src d i => state_of (onmessage_decoded src d i l)
  | EvMessage i => state_of (onmessage_interrupted i l)
  | EvEnded src => state_of (source_ended src l)
  | EvError m => state_of (onerror m l)
  | EvClose r => state_of (onclose r l)
  | EvStart => default l (startRecording l)
  | EvGranted => startRecording_granted l
  | EvDenied m => startRecording_denied m l
  | EvStop => stopRecording l
  | EvReset => reset l
  end.

Definition run (es : list Event) (l : LiveAudio) : LiveAudio :=
  foldl (fun l e => step e l) l es.

(** Each chunk is started no earlier than the end of the one started before
    it. *)
Fixpoint chunks_follow (cs : list Chunk) : Prop :=
  match cs with
  | [] => True
  | c1 :: rest =>
    match rest with
    | [] => True
    | c2 :: _ => when c1 + duration c1 <= when c2
    end /\ chunks_follow rest
  end.

(** The playback queue is in order and [nextStartTime] is not before the end
    of the chunk started last. *)
Definition queue_ok (l : LiveAudio) : Prop :=
  chunks_follow (started l) /\
  forall c, last (started l) = Some c -> when c + duration c <= nextStartTime l.

(** An event that is no interruption and, when it delivers a decoded buffer,
    delivers one of a duration that is not negative. *)
Definition quiet (e : Event) : Prop :=
  match e with
  | EvDecoded _ d i => i = false /\ 0 <= d
  | EvMessage i => i = false
  | _ => True
  end.

Definition not_an_error (e : Event) : Prop :=
  match e with
  | EvError _ => False
  | _ => True
  end.

(** Three chunks arrive while the first is playing. *)
Definition three_chunks : list Event :=
  [ EvRendered; EvAudio 1; EvDecoded 0 0.5 false;
    EvAudio 1.2; EvDecoded 1 0.25 false; EvEnded 0;
    EvAudio 3; EvDecoded 2 1 false ].

End Live.

(** * The robot viewer ([avatar-3d])

    The animation control of the first component: which clips play once, the
    cross-fade between actions and the [finished] listeners.  An animation
    action is identified by the position of its clip in the loaded
    animations; the calls the component makes on actions are recorded in the
    order it makes them. *)

Module Robot.

Definition states : list string :=
  ["Idle"; "Walking"; "Running"; "Dance"; "Death"; "Sitting"; "Standing"]%string.

Definition emotes : list string :=
  ["Jump"; "Yes"; "No"; "Wave"; "Punch"; "ThumbsUp"]%string.

(** [Array.prototype.indexOf]: the first position of [x], or -1. *)
Fixpoint indexOf (l : list string) (x : string) : Z :=
  match l with
  | [] => -1
  | y :: l =>
    if bool_decide (y = x) then 0
    else let i := indexOf l x in if (i <? 0)%Z then -1 else (i + 1)%Z
  end.

(** [Array.prototype.includes] *)
Definition includes (l : list string) (x : string) : bool :=
  bool_decide (x ∈ l).

(** The test of [createGUI] for a clip that is clamped and played once. *)
Definition plays_once (n : string) : bool :=
  includes emotes n || (4 <=? indexOf states n)%Z.

(** A call on an animation action. *)
Inductive Call :=
| FadeOut (action : nat) (duration : R)
| Reset (action : nat)
| SetEffectiveTimeScale (action : nat) (scale : R)
| SetEffectiveWeight (action : nat) (weight : R)
| FadeIn (action : nat) (duration : R)
| Play (action : nat).

Record Avatar3D := mkAvatar3D {
  actions : gmap string nat;
  once : gset nat;
  activeAction : option nat;
  previousAction : option nat;
  api_state : string;
  listeners : list nat;
  bound : nat;
  calls : list Call
}.

(** The field initialisers; [bound] counts the functions [bind] has made. *)
Definition initial : Avatar3D :=
  mkAvatar3D ∅ ∅ None None "Walking" [] 0 [].

Inductive Result :=
| Ok (s : Avatar3D)
| Throws (s : Avatar3D).

Definition state_of (r : Result) : Avatar3D :=
  match r with Ok s | Throws s => s end.

Definition call (c : list Call) (s : Avatar3D) : Avatar3D :=
  mkAvatar3D (actions s) (once s) (activeAction s) (previousAction s)
    (api_state s) (listeners s) (bound s) (calls s ++ c).

(** The loop of [createGUI] over the clips: clip [i] is called [n]. *)
Definition add_clip (s : Avatar3D) (i : nat) (n : string) : Avatar3D :=
  mkAvatar3D (<[n := i]> (actions s))
    (if plays_once n then {[i]} ∪ once s else once s)
    (activeAction s) (previousAction s) (api_state s) (listeners s)
    (bound s) (calls s).

Fixpoint add_clips (s : Avatar3D) (i : nat) (animations : list string) : Avatar3D :=
  match animations with
  | [] => s
  | n :: animations => add_clips (add_clip s i n) (S i) animations
  end.

(** [createGUI]: the actions, then the initial action is played. *)
Definition createGUI (animations : list string) (s : Avatar3D) : Result :=
  let s := add_clips s 0 animations in
  let s := mkAvatar3D (actions s) (once s) (actions s !! "Walking")
             (previousAction s) (api_state s) (listeners s) (bound s) (calls s) in
  match activeAction s with
  | None => Throws s
  | Some a => Ok (call [Play a] s)
  end.

Definition fadeToAction (name : string) (duration : R) (s : Avatar3D) : Result :=
  let s := mkAvatar3D (actions s) (once s) (actions s !! name) (activeAction s)
             (api_state s) (listeners s) (bound s) (calls s) in
  let faded :=
    if bool_decide (previousAction s = activeAction s) then Some s
    else match previousAction s with
         | Some p => Some (call [FadeOut p duration] s)
         | None => None
         end in
  match faded with
  | None => Throws s
  | Some s =>
    match activeAction s with
    | None => Throws s
    | Some a =>
      Ok (call [Reset a; SetEffectiveTimeScale a 1; SetEffectiveWeight a 1;
                FadeIn a duration; Play a] s)
    end
  end.

(** [f.bind(this)]: a function that no earlier one is identical to. *)
Definition bind (s : Avatar3D) : nat * Avatar3D :=
  (bound s,
   mkAvatar3D (actions s) (once s) (activeAction s) (previousAction s)
     (api_state s) (listeners s) (S (bound s)) (calls s)).

(** [EventDispatcher.addEventListener]: added unless already there. *)
Definition addEventListener (f : nat) (s : Avatar3D) : Avatar3D :=
  mkAvatar3D (actions s) (once s) (activeAction s) (previousAction s)
    (api_state s)
    (if bool_decide (f ∈ listeners s) then listeners s else listeners s ++ [f])
    (bound s) (calls s).

(** [EventDispatcher.removeEventListener]: the first occurrence goes. *)
Fixpoint remove_first (f : nat) (l : list nat) : list nat :=
  match l with
  | [] => []
  | g :: l => if bool_decide (g = f) then l else g :: remove_first f l
  end.

Definition removeEventListener (f : nat) (s : Avatar3D) : Avatar3D :=
  mkAvatar3D (actions s) (once s) (activeAction s) (previousAction s)
    (api_state s) (remove_first f (listeners s)) (bound s) (calls s).

Definition restoreState (s : Avatar3D) : Result :=
  let '(f, s) := bind s in
  let s := removeEventListener f s in
  fadeToAction (api_state s) 0.2 s.

(** The callback of an emote button. *)
Definition emote (name : string) (s : Avatar3D) : Result :=
  match fadeToAction name 0.2 s with
  | Throws s => Throws s
  | Ok s => let '(f, s) := bind s in Ok (addEventListener f s)
  end.

(** The [onChange] of the states menu, after the menu has set [api.state]. *)
Definition state_changed (name : string) (s : Avatar3D) : Result :=
  let s := mkAvatar3D (actions s) (once s) (activeAction s) (previousAction s)
             name (listeners s) (bound s) (calls s) in
  fadeToAction (api_state s) 0.5 s.

(** The mixer dispatches [finished]: the listeners registered at that moment
    are called in turn (each is a bound [restoreState]); an exception ends
    the dispatch. *)
Fixpoint dispatch_finished (n : nat) (s : Avatar3D) : Result :=
  match n with
  | O => Ok s
  | S n =>
    match restoreState s with
    | Throws s => Throws s
    | Ok s => dispatch_finished n s
    end
  end.

Inductive Event :=
| EvState (name : string)
| EvEmote (name : string)
| EvFinished.

Definition handle (e : Event) (s : Avatar3D) : Result :=
  match e with
  | EvState n => state_changed n s
  | EvEmote n => emote n s
  | EvFinished => dispatch_finished (length (listeners s)) s
  end.

Definition step (e : Event) (s : Avatar3D) : Avatar3D :=
  state_of (handle e s).

Definition run (es : list Event) (s : Avatar3D) : Avatar3D :=
  foldl (fun s e => step e s) s es.

(** No handler of the run ends in an exception. *)
Fixpoint never_throws (es : list Event) (s : Avatar3D) : Prop :=
  match es with
  | [] => True
  | e :: es => (exists s', handle e s = Ok s') /\ never_throws es (step e s)
  end.

(** The events the panel can produce: the menu offers [states], and there is
    a button for each of [emotes]. *)
Definition offered (e : Event) : Prop :=
  match e with
  | EvState n => n ∈ states
  | EvEmote n => n ∈ emotes
  | EvFinished => True
  end.

Definition is_emote (e : Event) : bool :=
  match e with EvEmote _ => true | _ => false end.

(** The last position of [n] in [l]. *)
Fixpoint last_index (l : list string) (n : string) : option nat :=
  match l with
  | [] => None
  | m :: l =>
    match last_index l n with
    | Some j => Some (S j)
    | None => if bool_decide (m = n) then Some 0%nat else None
    end
  end.

Definition is_reset (a : nat) (c : Call) : bool :=
  match c with Reset b => bool_decide (a = b) | _ => false end.

(** Every listener is a function that [bind] has made. *)
Definition listeners_bound (s : Avatar3D) : Prop :=
  Forall (fun f => (f < bound s)%nat) (listeners s).

(** What the handlers keep: the listeners are functions made by [bind], an
    action is active, the names of the panel have clips and the state is one
    of the menu. *)
Definition ready (s : Avatar3D) : Prop :=
  listeners_bound s /\
  is_Some (activeAction s) /\
  (forall n, n ∈ states ++ emotes -> is_Some (actions s !! n)) /\
  api_state s ∈ states.

(** How often a run presses an emote button. *)
Definition emote_clicks (es : list Event) : nat :=
  length (filter (fun e => is_emote e = true) es).

(** How often [reset] was called on the action [a]. *)
Definition resets (a : nat) (cs : list Call) : nat :=
  length (filter (fun c => is_reset a c = true) cs).

(** An example of loaded animations: a clip for every name of the panel and
    one more. *)
Definition robot_clips : list string :=
  ["Dance"; "Death"; "Idle"; "Jump"; "No"; "Punch"; "Running"; "Sitting";
   "Standing"; "ThumbsUp"; "Walking"; "WalkJump"; "Wave"; "Yes"]%string.

End Robot.

(** ** Observations on the ears *)

(** A step that leaves the scale of node [i] alone. *)
Definition scale_step (i : nat) (s s' : State) : Prop :=
  exists F, node i s' = F <$> node i s /\ forall c, scale (F c) = scale c.




(** * Properties *)

(** ** Unfolding the event loop *)

Lemma run_cons e es s : run (e :: es) s = run es (step e s).
Proof. reflexivity. Qed.

Lemma frames_cons io ios : frames (io :: ios) = EvAnimate io :: frames ios.
Proof. reflexivity. Qed.

Lemma step_animate io s : step (EvAnimate io) s = state_of (animate io s).
Proof. reflexivity. Qed.

Lemma run_frames_cons io ios s :
  run (frames (io :: ios)) s = run (frames ios) (state_of (animate io s)).
Proof. by rewrite frames_cons, run_cons, step_animate. Qed.

Lemma controls_set_avatar g s : controls (set_avatar g s) = controls s.
Proof. reflexivity. Qed.

(** ** Arithmetic of the helpers *)

Lemma clamp_bounds (v lo hi : R) :
  lo <= hi -> lo <= MathUtils.clamp v lo hi <= hi.
Proof.
  intros Hlh. unfold MathUtils.clamp, Rmax, Rmin.
  repeat destruct Rle_dec; lra.
Qed.



Lemma byte_value_bounds (b : byte) : 0 <= byte_value b <= 255.
Proof.
  unfold byte_value. pose proof (Byte.to_N_bounded b) as Hb.
  split.
  - apply IZR_le. lia.
  - apply IZR_le. lia.
Qed.

Lemma foldl_sum_magnitudes (d : list byte) (acc : R) :
  foldl (fun sum b => sum + byte_value b) acc d = acc + sum_magnitudes d.
Proof.
  revert acc. induction d as [|b d IH]; intros acc; simpl.
  - lra.
  - rewrite IH. lra.
Qed.

Lemma sum_magnitudes_bounds (d : list byte) :
  0 <= sum_magnitudes d <= 255 * INR (length d).
Proof.
  induction d as [|b d IH].
  - simpl. lra.
  - change (sum_magnitudes (b :: d)) with (byte_value b + sum_magnitudes d).
    change (length (b :: d)) with (S (length d)). rewrite S_INR.
    pose proof (byte_value_bounds b). lra.
Qed.

(** ** The loudness extractor *)

Lemma pullLevel_no_analyser snapshot prev alpha :
  pullLevel snapshot None prev alpha = (None, prev * 0.95).
Proof. reflexivity. Qed.

Lemma pullLevel_no_data an prev alpha :
  (pullLevel None (Some an) prev alpha).2 = prev * 0.95.
Proof. reflexivity. Qed.

Lemma pullLevel_empty an prev alpha :
  (pullLevel (Some []) (Some an) prev alpha).2 = prev * 0.95.
Proof. reflexivity. Qed.

Lemma pullLevel_data an b d prev alpha :
  (pullLevel (Some (b :: d)) (Some an) prev alpha).2
  = prev * (1 - alpha) + (mean_magnitude (b :: d) / 255) * alpha.
Proof.
  cbn [pullLevel Analyser_update data snd].
  rewrite foldl_sum_magnitudes. unfold mean_magnitude.
  assert (INR (length (b :: d)) <> 0) as Hn.
  { change (length (b :: d)) with (S (length d)). rewrite S_INR.
    pose proof (pos_INR (length d)). lra. }
  field. exact Hn.
Qed.

Lemma pullLevel_unit snapshot an prev alpha :
  0 <= alpha <= 1 -> 0 <= prev <= 1 ->
  0 <= (pullLevel snapshot an prev alpha).2 <= 1.
Proof.
  intros Ha Hp.
  destruct an as [an|]; [|simpl; lra].
  destruct snapshot as [[|b d]|]; [simpl; lra | | simpl; lra].
  rewrite pullLevel_data.
  assert (0 <= mean_magnitude (b :: d) / 255 <= 1) as Hm.
  { unfold mean_magnitude.
    pose proof (sum_magnitudes_bounds (b :: d)) as Hs.
    assert (0 < INR (length (b :: d))) as Hn.
    { change (length (b :: d)) with (S (length d)). rewrite S_INR.
      pose proof (pos_INR (length d)). lra. }
    set (n := INR (length (b :: d))) in *.
    set (t := sum_magnitudes (b :: d)) in *.
    assert (t / n / 255 = t * / (n * 255)) as -> by (field; lra).
    assert (0 < / (n * 255)) as Hi by (apply Rinv_0_lt_compat; lra).
    split.
    - apply Rmult_le_pos; lra.
    - apply (Rmult_le_reg_r (n * 255)); [lra|].
      rewrite Rmult_assoc, Rinv_l by lra. lra. }
  nra.
Qed.

(** ** Which fields each method touches *)


Lemma set_avatar_same (s : State) : set_avatar (avatar s) s = s.
Proof. by destruct s. Qed.

Lemma scene_only_id : scene_only (fun s => s).
Proof. intros s. exists (avatar s). by rewrite set_avatar_same. Qed.

Lemma scene_only_compose (f g : State -> State) :
  scene_only f -> scene_only g -> scene_only (fun s => g (f s)).
Proof.
  intros Hf Hg s. destruct (Hf s) as [a Ha]. destruct (Hg (f s)) as [b Hb].
  exists b. rewrite Hb, Ha. reflexivity.
Qed.

Lemma scene_only_applyMorph n v : scene_only (applyMorph n v).
Proof.
  intros s. unfold applyMorph. destruct (avatar s) eqn:E; eauto.
  exists (avatar s). by rewrite set_avatar_same.
Qed.

Lemma scene_only_lerpMorph n v r : scene_only (lerpMorph n v r).
Proof.
  intros s. unfold lerpMorph. destruct (avatar s) eqn:E; eauto.
  exists (avatar s). by rewrite set_avatar_same.
Qed.

Lemma scene_only_animate_head io : scene_only (animate_head io).
Proof.
  intros s. unfold animate_head.
  destruct (avatar s) eqn:E; [destruct (headMesh s)|]; eauto;
    exists (avatar s); by rewrite set_avatar_same.
Qed.

Lemma scene_only_animate_ears io : scene_only (animate_ears io).
Proof.
  intros s. unfold animate_ears. destruct (avatar s) eqn:E; eauto.
  exists (avatar s). by rewrite set_avatar_same.
Qed.

Lemma scene_only_with_avatar_root cb : scene_only (with_avatar_root cb).
Proof.
  intros s. unfold with_avatar_root. destruct (avatar s) eqn:E; eauto.
  exists (avatar s). by rewrite set_avatar_same.
Qed.

Lemma animate_teeth_scene_only s s' :
  animate_teeth s = Some s' -> exists g, s' = set_avatar g s.
Proof.
  unfold animate_teeth. intros H.
  repeat case_match; simplify_eq;
    first [ by eexists | eexists; symmetry; apply set_avatar_same ].
Qed.


Lemma scene_only_controls f s : scene_only f -> controls (f s) = controls s.
Proof. intros Hf. destruct (Hf s) as [g ->]. reflexivity. Qed.

Lemma controls_fields s s' :
  controls s = controls s' ->
  outputAnalyser s = outputAnalyser s' /\ inputAnalyser s = inputAnalyser s' /\
  headMesh s = headMesh s' /\ teethMesh s = teethMesh s' /\
  _mode s = _mode s' /\ outLevel s = outLevel s' /\ inLevel s = inLevel s' /\
  nextBlinkAt s = nextBlinkAt s' /\ blinkT s = blinkT s' /\
  dancePhase s = dancePhase s' /\ isDancing s = isDancing s' /\
  console s = console s'.
Proof.
  intros H.
  repeat split; match goal with |- ?p s = ?p s' => exact (f_equal p H) end.
Qed.

Ltac controls_of H :=
  apply controls_fields in H;
  destruct H as (HoutputAnalyser & HinputAnalyser & HheadMesh & HteethMesh
                 & Hmode & HoutLevel & HinLevel & HnextBlinkAt & HblinkT
                 & HdancePhase & HisDancing & Hconsole).

Lemma controls_eq s s' :
  outputAnalyser s = outputAnalyser s' -> inputAnalyser s = inputAnalyser s' ->
  headMesh s = headMesh s' -> teethMesh s = teethMesh s' ->
  _mode s = _mode s' -> outLevel s = outLevel s' -> inLevel s = inLevel s' ->
  nextBlinkAt s = nextBlinkAt s' -> blinkT s = blinkT s' ->
  dancePhase s = dancePhase s' -> isDancing s = isDancing s' ->
  console s = console s' ->
  controls s = controls s'.
Proof.
  destruct s, s'; unfold controls, set_avatar; simpl; intros; by subst.
Qed.

Lemma animate_unfold io s :
  animate io s =
  match animate_teeth (animate_pose io s) with
  | None => TypeError (animate_pose io s)
  | Some s' => Done (doBlink io (clock_delta io) s')
  end.
Proof. reflexivity. Qed.

Lemma controls_animate_mode io dt s :
  controls (animate_mode io dt s) = controls (animate_mode_controls dt s).
Proof.
  unfold animate_mode, animate_mode_controls.
  destruct (_mode s).
  - rewrite (scene_only_controls (with_avatar_root _) _ (scene_only_with_avatar_root _)).
    apply (scene_only_controls (lerpMorph _ _ _)), scene_only_lerpMorph.
  - rewrite (scene_only_controls (lerpMorph _ _ _) _ (scene_only_lerpMorph _ _ _)).
    apply (scene_only_controls (applyMorph _ _)), scene_only_applyMorph.
  - rewrite (scene_only_controls (with_avatar_root _) _ (scene_only_with_avatar_root _)).
    rewrite (scene_only_controls (lerpMorph _ _ _) _ (scene_only_lerpMorph _ _ _)).
    apply (scene_only_controls (applyMorph _ _)), scene_only_applyMorph.
  - cbv zeta.
    rewrite (scene_only_controls (lerpMorph _ _ _) _ (scene_only_lerpMorph _ _ _)).
    rewrite (scene_only_controls (applyMorph _ _) _ (scene_only_applyMorph _ _)).
    apply (scene_only_controls (with_avatar_root _)), scene_only_with_avatar_root.
Qed.

Lemma controls_doBlink io dt s :
  controls (doBlink io dt s) = controls (doBlink_controls io dt s).
Proof.
  unfold doBlink, doBlink_controls. cbv zeta.
  set (s1 := if blink_fires (now_blink io) s then _ else s).
  destruct (bool_decide (0 < blinkT s1)); [|reflexivity].
  rewrite (scene_only_controls (applyMorph _ _) _ (scene_only_applyMorph _ _)).
  rewrite (scene_only_controls (applyMorph _ _) _ (scene_only_applyMorph _ _)).
  apply (scene_only_controls (applyMorph _ _)), scene_only_applyMorph.
Qed.

Lemma controls_doBlink_congr io dt s s' :
  controls s = controls s' ->
  controls (doBlink_controls io dt s) = controls (doBlink_controls io dt s').
Proof.
  intros H. controls_of H.
  unfold doBlink_controls, blink_fires, scheduleNextBlink. cbv zeta.
  rewrite HnextBlinkAt, HblinkT.
  destruct (_ && _); simpl; [|rewrite HblinkT];
    destruct (bool_decide _); apply controls_eq; simpl; congruence.
Qed.

Lemma controls_animate_mode_congr dt s s' :
  controls s = controls s' ->
  controls (animate_mode_controls dt s) = controls (animate_mode_controls dt s').
Proof.
  intros H. controls_of H.
  unfold animate_mode_controls. rewrite Hmode.
  destruct (_mode s') eqn:Hm'; apply controls_eq; simpl; congruence.
Qed.

Lemma controls_console_log_congr e s s' :
  controls s = controls s' ->
  controls (console_log e s) = controls (console_log e s').
Proof.
  intros H. controls_of H. apply controls_eq; simpl; congruence.
Qed.

Lemma controls_animate_pose io s :
  controls (animate_pose io s)
  = controls (animate_mode_controls (clock_delta io)
                (console_log (LogMode (_mode s)) (animate_levels io s))).
Proof.
  unfold animate_pose. cbv zeta. rewrite controls_animate_mode.
  set (s1 := animate_levels io s).
  set (s2 := animate_ears io (lerpMorph "mouthSmile" 0 0.12 (animate_head io s1))).
  assert (controls s2 = controls s1) as Hc.
  { unfold s2.
    rewrite (scene_only_controls (animate_ears _) _ (scene_only_animate_ears _)).
    rewrite (scene_only_controls (lerpMorph _ _ _) _ (scene_only_lerpMorph _ _ _)).
    apply (scene_only_controls (animate_head _)), scene_only_animate_head. }
  assert (_mode s2 = _mode s) as ->.
  { pose proof Hc as Hc'. controls_of Hc'.
    unfold s1, animate_levels in *. repeat case_match. simpl in *. congruence. }
  apply controls_animate_mode_congr, controls_console_log_congr, Hc.
Qed.

Lemma controls_animate io s :
  let s1 := animate_mode_controls (clock_delta io)
              (console_log (LogMode (_mode s)) (animate_levels io s)) in
  controls (state_of (animate io s)) = controls s1 \/
  controls (state_of (animate io s))
  = controls (doBlink_controls io (clock_delta io) s1).
Proof.
  intros s1. rewrite animate_unfold.
  destruct (animate_teeth (animate_pose io s)) as [s'|] eqn:Ht; simpl.
  - right. rewrite controls_doBlink.
    apply controls_doBlink_congr.
    apply animate_teeth_scene_only in Ht as [g ->].
    rewrite controls_set_avatar. apply controls_animate_pose.
  - left. apply controls_animate_pose.
Qed.

Lemma animate_levels_out io s :
  outLevel (animate_levels io s)
  = (pullLevel (out_fft io) (outputAnalyser s) (outLevel s) 0.35).2.
Proof.
  unfold animate_levels.
  destruct (pullLevel (out_fft io) _ _ _) as [an l]. simpl.
  destruct (pullLevel (in_fft io) _ _ _) as [an' l']. reflexivity.
Qed.

Lemma animate_levels_in io s :
  inLevel (animate_levels io s)
  = (pullLevel (in_fft io) (inputAnalyser s) (inLevel s) 0.35).2.
Proof.
  unfold animate_levels.
  destruct (pullLevel (out_fft io) _ _ _) as [an l]. simpl.
  destruct (pullLevel (in_fft io) _ _ _) as [an' l']. reflexivity.
Qed.

Lemma animate_levels_rest io s :
  _mode (animate_levels io s) = _mode s /\
  dancePhase (animate_levels io s) = dancePhase s /\
  blinkT (animate_levels io s) = blinkT s /\
  nextBlinkAt (animate_levels io s) = nextBlinkAt s /\
  isDancing (animate_levels io s) = isDancing s /\
  avatar (animate_levels io s) = avatar s /\
  headMesh (animate_levels io s) = headMesh s /\
  teethMesh (animate_levels io s) = teethMesh s /\
  console (animate_levels io s) = console s.
Proof.
  unfold animate_levels.
  destruct (pullLevel (out_fft io) _ _ _) as [an l]. simpl.
  destruct (pullLevel (in_fft io) _ _ _) as [an' l']. by repeat split.
Qed.

Lemma animate_levels_analyser io s :
  (outputAnalyser s = None -> outputAnalyser (animate_levels io s) = None) /\
  (inputAnalyser s = None -> inputAnalyser (animate_levels io s) = None).
Proof.
  unfold animate_levels. split; intros H.
  - rewrite H. simpl. by destruct (pullLevel (in_fft io) _ _ _).
  - destruct (pullLevel (out_fft io) _ _ _) as [an l]. simpl. by rewrite H.
Qed.

(** The levels a frame leaves are those its first two statements compute,
    whether or not the frame ends in an exception. *)
Lemma animate_outLevel io s :
  outLevel (state_of (animate io s))
  = (pullLevel (out_fft io) (outputAnalyser s) (outLevel s) 0.35).2.
Proof.
  rewrite <- animate_levels_out.
  destruct (controls_animate io s) as [H|H]; controls_of H;
    rewrite HoutLevel; unfold doBlink_controls, animate_mode_controls,
      blink_fires, scheduleNextBlink; repeat case_match; reflexivity.
Qed.

Lemma animate_inLevel io s :
  inLevel (state_of (animate io s))
  = (pullLevel (in_fft io) (inputAnalyser s) (inLevel s) 0.35).2.
Proof.
  rewrite <- animate_levels_in.
  destruct (controls_animate io s) as [H|H]; controls_of H;
    rewrite HinLevel; unfold doBlink_controls, animate_mode_controls,
      blink_fires, scheduleNextBlink; repeat case_match; reflexivity.
Qed.

Lemma animate_outputAnalyser_none io s :
  outputAnalyser s = None -> outputAnalyser (state_of (animate io s)) = None.
Proof.
  intros Hn. apply (proj1 (animate_levels_analyser io s)) in Hn.
  destruct (controls_animate io s) as [H|H]; controls_of H;
    rewrite HoutputAnalyser; unfold doBlink_controls, animate_mode_controls,
      blink_fires, scheduleNextBlink; repeat case_match; exact Hn.
Qed.

Lemma log_morphs_fields g s :
  exists c,
    log_morphs g s
    = mkState (outputAnalyser s) (inputAnalyser s) (avatar s) (headMesh s)
        (teethMesh s) (_mode s) (outLevel s) (inLevel s) (nextBlinkAt s)
        (blinkT s) (dancePhase s) (isDancing s) c.
Proof.
  unfold log_morphs. revert s. induction g as [|c g IH]; intros s.
  - exists (console s). by destruct s.
  - cbn [foldl]. set (s1 := if isMesh c then _ else s).
    destruct (IH s1) as [l ->]. exists l.
    unfold s1. repeat case_match; reflexivity.
Qed.

Lemma loadAvatar_onLoad_levels scene now rnd s :
  outLevel (loadAvatar_onLoad scene now rnd s) = outLevel s /\
  inLevel (loadAvatar_onLoad scene now rnd s) = inLevel s.
Proof.
  unfold loadAvatar_onLoad, scheduleNextBlink. cbv zeta.
  set (s1 := set_teethMesh _ _). set (g := traverse _ _).
  destruct (log_morphs_fields g s1) as [l ->]. by split.
Qed.

Lemma step_levels_unit e s :
  0 <= outLevel s <= 1 -> 0 <= inLevel s <= 1 ->
  0 <= outLevel (step e s) <= 1 /\ 0 <= inLevel (step e s) <= 1.
Proof.
  intros Ho Hi. destruct e; cbn [step].
  - rewrite animate_outLevel, animate_inLevel.
    split; apply pullLevel_unit; lra.
  - destruct (loadAvatar_onLoad_levels scene now rnd s) as [-> ->]. done.
  - done.
  - done.
  - done.
  - done.
  - done.
  - done.
  - unfold stopDance. by destruct (_mode _).
  - done.
Qed.

(** ** The public controls *)

(** C10: [stopDance()] always clears the dancing flag and sets the mode to
    idle only when the mode was dance (speak, whisper and idle are kept);
    [goIdle()] sets the mode to idle and clears the flag from any mode. *)
Theorem stopDance_only_leaves_dance (s : State) :
  isDancing (stopDance s) = false /\
  _mode (stopDance s) = match _mode s with
                        | dance => idle
                        | speak => speak
                        | whisper => whisper
                        | idle => idle
                        end /\
  _mode (goIdle s) = idle /\
  isDancing (goIdle s) = false.
Proof.
  unfold stopDance, goIdle. destruct s as [? ? ? ? ? m ? ? ? ? ? ? ?].
  destruct m; by repeat split.
Qed.

(** ** Loudness levels *)

(** C3: with a non-empty magnitude buffer and previous level [p] the new level
    is [p * (1 - 0.35) + (mean / 255) * 0.35]; without an analyser, without
    data or with an empty buffer it is [p * 0.95], and after N consecutive
    frames without output data the level is the initial one times
    [0.95 ^ N].  Every case returns a level. *)
Theorem pullLevel_ema_and_decay :
  (forall an b d p,
     (pullLevel (Some (b :: d)) (Some an) p pullLevel_alpha).2
     = p * (1 - 0.35) + (mean_magnitude (b :: d) / 255) * 0.35) /\
  (forall snapshot p, (pullLevel snapshot None p pullLevel_alpha).2 = p * 0.95) /\
  (forall an p, (pullLevel None (Some an) p pullLevel_alpha).2 = p * 0.95) /\
  (forall an p, (pullLevel (Some []) (Some an) p pullLevel_alpha).2 = p * 0.95) /\
  (forall ios s,
     outputAnalyser s = None \/ Forall out_silent ios ->
     outLevel (run (frames ios) s) = outLevel s * 0.95 ^ length ios).
Proof.
  repeat split; try reflexivity.
  - intros. rewrite pullLevel_data. unfold pullLevel_alpha. reflexivity.
  - intros ios. induction ios as [|io ios IH]; intros s Hs.
    + simpl. lra.
    + rewrite run_frames_cons.
      rewrite IH.
      * rewrite animate_outLevel. simpl.
        destruct Hs as [Hn|Hf].
        -- rewrite Hn. simpl. lra.
        -- apply Forall_cons in Hf as [[Hio|Hio] _]; rewrite Hio;
             destruct (outputAnalyser s); simpl; lra.
      * destruct Hs as [Hn|Hf].
        -- left. by apply animate_outputAnalyser_none.
        -- right. by apply Forall_cons in Hf as [_ ?].
Qed.

(** C4: from levels in [0,1], every sequence of events (frames with any
    snapshots, absent or empty ones included, and any other calls) leaves
    both smoothed levels in [0,1]. *)
Theorem levels_stay_in_unit_interval (es : list Event) (s : State) :
  0 <= outLevel s <= 1 -> 0 <= inLevel s <= 1 ->
  0 <= outLevel (run es s) <= 1 /\ 0 <= inLevel (run es s) <= 1.
Proof.
  revert s. induction es as [|e es IH]; intros s Ho Hi.
  - done.
  - rewrite run_cons.
    destruct (step_levels_unit e s Ho Hi). by apply IH.
Qed.

(** ** Arrays with holes *)

Lemma array_get_set_eq a k v : array_get (array_set a k v) k = Some v.
Proof.
  unfold array_get, array_set. case_decide as Hk.
  - by rewrite list_lookup_insert_eq.
  - rewrite lookup_app_r by lia. rewrite lookup_app_r; rewrite length_replicate; [|lia].
    by replace (k - length a - (k - length a))%nat with 0%nat by lia.
Qed.

Lemma array_get_set_ne a k j v :
  j <> k -> array_get (array_set a k v) j = array_get a j.
Proof.
  intros Hjk. unfold array_get, array_set. case_decide as Hk.
  - by rewrite list_lookup_insert_ne.
  - destruct (decide (j < length a)%nat) as [Hj|Hj].
    + by rewrite lookup_app_l.
    + rewrite (lookup_ge_None_2 a j) by lia.
      rewrite lookup_app_r by lia.
      destruct (decide (j - length a < k - length a)%nat) as [Hlt|Hge].
      * rewrite lookup_app_l by (rewrite length_replicate; lia).
        by rewrite lookup_replicate_2.
      * rewrite lookup_app_r; rewrite length_replicate; [|lia].
        rewrite lookup_ge_None_2; [done|]. simpl. lia.
Qed.

Lemma array_get_or0_set_ne a k j v :
  j <> k -> array_get_or0 (array_set a k v) j = array_get_or0 a j.
Proof. intros H. unfold array_get_or0. by rewrite array_get_set_ne. Qed.

(** ** The morph writers on one node *)

Lemma morphs_eq c1 c2 :
  morphs c1 = morphs c2 ->
  isMesh c1 = isMesh c2 /\ morphTargetDictionary c1 = morphTargetDictionary c2
  /\ morphTargetInfluences c1 = morphTargetInfluences c2.
Proof. unfold morphs. intros H. by simplify_eq. Qed.

Lemma morphs_rig c1 c2 : morphs c1 = morphs c2 -> rig c1 = rig c2.
Proof. intros (H1 & H2 & _)%morphs_eq. unfold rig. congruence. Qed.

Lemma morph_value_morphs n c1 c2 :
  morphs c1 = morphs c2 -> morph_value n c1 = morph_value n c2.
Proof.
  intros (_ & H2 & H3)%morphs_eq. unfold morph_value. by rewrite H2, H3.
Qed.


Lemma applyMorph_child_congr n v c1 c2 :
  morphs c1 = morphs c2 ->
  morphs (applyMorph_child n v c1) = morphs (applyMorph_child n v c2).
Proof.
  intros (H1 & H2 & H3)%morphs_eq. unfold applyMorph_child.
  rewrite H1, H2, H3. repeat case_match; unfold morphs; simpl; congruence.
Qed.


Lemma rig_applyMorph_child n v c : rig (applyMorph_child n v c) = rig c.
Proof. unfold applyMorph_child. by repeat case_match. Qed.

Lemma rig_lerpMorph_child n v r c : rig (lerpMorph_child n v r c) = rig c.
Proof. unfold lerpMorph_child. by repeat case_match. Qed.

Lemma morph_mesh_applyMorph_child n v c dict :
  morph_mesh c dict -> morph_mesh (applyMorph_child n v c) dict.
Proof.
  intros (H1 & H2 & [a H3]). unfold applyMorph_child, morph_mesh.
  rewrite H1, H2, H3. by destruct (dict !! n).
Qed.


(** A direct write sets the channel to the clamped value. *)
Lemma applyMorph_child_value n v c dict k :
  morph_mesh c dict -> dict !! n = Some k ->
  morph_value n (applyMorph_child n v c) = Some (MathUtils.clamp v 0 1).
Proof.
  intros (H1 & H2 & [a H3]) Hk. unfold applyMorph_child, morph_value.
  rewrite H1, H2, H3, Hk. simpl. rewrite H2. simpl. rewrite Hk. simpl.
  apply array_get_set_eq.
Qed.


(** A write to channel [n] leaves a channel with another index alone. *)
Lemma applyMorph_child_other n n' v c :
  (forall dict k, morphTargetDictionary c = Some dict ->
                  dict !! n = Some k -> dict !! n' <> Some k) ->
  morph_value n' (applyMorph_child n v c) = morph_value n' c.
Proof.
  intros Hd. unfold applyMorph_child.
  destruct (isMesh c); [|done].
  destruct (morphTargetDictionary c) as [dict|] eqn:E2; [|done].
  destruct (morphTargetInfluences c) as [a|] eqn:E3; [|done].
  destruct (dict !! n) as [k|] eqn:Ek; [|done].
  unfold morph_value. simpl. rewrite E2, E3. simpl.
  destruct (dict !! n') as [k'|] eqn:Ek'; [|done]. simpl.
  apply array_get_set_ne. intros ->. by eapply Hd.
Qed.


(** A write to a channel the node does not have changes nothing. *)
Lemma applyMorph_child_absent n v c :
  (isMesh c = true ->
   forall dict, morphTargetDictionary c = Some dict -> dict !! n = None) ->
  applyMorph_child n v c = c.
Proof.
  intros H. unfold applyMorph_child.
  destruct (isMesh c); [|done].
  destruct (morphTargetDictionary c) as [dict|] eqn:E2; [|done].
  rewrite (H eq_refl dict eq_refl). by destruct (morphTargetInfluences c).
Qed.

Lemma lerpMorph_child_absent n v r c :
  (isMesh c = true ->
   forall dict, morphTargetDictionary c = Some dict -> dict !! n = None) ->
  lerpMorph_child n v r c = c.
Proof.
  intros H. unfold lerpMorph_child.
  destruct (isMesh c); [|done].
  destruct (morphTargetDictionary c) as [dict|] eqn:E2; [|done].
  rewrite (H eq_refl dict eq_refl). by destruct (morphTargetInfluences c).
Qed.

(** ** Following one node through the methods *)

Lemma keeps_morphs_rig F : keeps_morphs F -> keeps_rig F.
Proof. intros H c. apply morphs_rig, H. Qed.

Lemma keeps_morphs_id : keeps_morphs Datatypes.id.
Proof. by intros c. Qed.

Lemma keeps_morphs_compose F G :
  keeps_morphs F -> keeps_morphs G -> keeps_morphs (G ∘ F).
Proof. intros HF HG c. simpl. by rewrite HG, HF. Qed.

Lemma keeps_rig_compose F G :
  keeps_rig F -> keeps_rig G -> keeps_rig (G ∘ F).
Proof. intros HF HG c. simpl. by rewrite HG, HF. Qed.

Lemma lookup_update_node i k cb (g : Group) :
  update_node k cb g !! i = (if decide (k = i) then cb else Datatypes.id) <$> g !! i.
Proof.
  unfold update_node. rewrite list_lookup_alter.
  case_decide; subst; [done|]. by rewrite option_fmap_id.
Qed.

Lemma node_applyMorph i n v s :
  node i (applyMorph n v s) = applyMorph_child n v <$> node i s.
Proof.
  unfold node, applyMorph. destruct (avatar s) as [g|] eqn:E; simpl.
  - apply list_lookup_fmap.
  - by rewrite E.
Qed.

Lemma node_lerpMorph i n v r s :
  node i (lerpMorph n v r s) = lerpMorph_child n v r <$> node i s.
Proof.
  unfold node, lerpMorph. destruct (avatar s) as [g|] eqn:E; simpl.
  - apply list_lookup_fmap.
  - by rewrite E.
Qed.

Lemma node_with_avatar_root i cb s :
  keeps_morphs cb ->
  exists F, node i (with_avatar_root cb s) = F <$> node i s /\ keeps_morphs F.
Proof.
  intros Hcb. unfold node, with_avatar_root.
  destruct (avatar s) as [g|] eqn:E; simpl.
  - unfold update_root. rewrite lookup_update_node.
    eexists; split; [done|]. case_decide; [done|apply keeps_morphs_id].
  - rewrite E. exists Datatypes.id. split; [done|apply keeps_morphs_id].
Qed.

Lemma node_animate_head i io s :
  exists F, node i (animate_head io s) = F <$> node i s /\ keeps_morphs F.
Proof.
  unfold node, animate_head.
  destruct (avatar s) as [g|] eqn:E; simpl.
  - destruct (headMesh s) as [h|]; simpl.
    + rewrite lookup_update_node.
      eexists; split; [done|]. case_decide; [done|apply keeps_morphs_id].
    + rewrite E. simpl. exists Datatypes.id. rewrite option_fmap_id.
      split; [done|apply keeps_morphs_id].
  - rewrite E. exists Datatypes.id. split; [done|apply keeps_morphs_id].
Qed.

Lemma node_animate_ears i io s :
  exists F, node i (animate_ears io s) = F <$> node i s /\ keeps_morphs F.
Proof.
  unfold node, animate_ears.
  destruct (avatar s) as [g|] eqn:E; simpl.
  - destruct (getObjectByName "LeftEar" g) as [l|],
             (getObjectByName "RightEar" g) as [r|];
      rewrite ?lookup_update_node, <- ?option_fmap_compose;
      (eexists; split; [try done; by rewrite option_fmap_id|]);
      repeat case_decide; try done; try apply keeps_morphs_id.
  - rewrite E. exists Datatypes.id. split; [done|apply keeps_morphs_id].
Qed.

Lemma node_animate_teeth i s s' :
  animate_teeth s = Some s' ->
  exists F, node i s' = F <$> node i s /\ keeps_rig F
            /\ (teethMesh s <> Some i -> keeps_morphs F).
Proof.
  unfold animate_teeth. intros H.
  assert (node i s = Datatypes.id <$> node i s) as Hid by by rewrite option_fmap_id.
  repeat case_match; simplify_eq;
    try (exists Datatypes.id; split; [done|]; split;
         [apply keeps_morphs_rig|intros _]; apply keeps_morphs_id).
  unfold node at 1. simpl. rewrite lookup_update_node.
  match goal with H : avatar s = Some ?g |- _ =>
    assert (node i s = g !! i) as -> by (unfold node; by rewrite H) end.
  eexists; split; [done|]. split.
  - case_decide; [|apply keeps_morphs_rig, keeps_morphs_id]. by intros c.
  - intros Hne. case_decide; [congruence|apply keeps_morphs_id].
Qed.

Lemma node_animate_levels i io s : node i (animate_levels io s) = node i s.
Proof.
  unfold node. destruct (animate_levels_rest io s) as (_&_&_&_&_&->&_). done.
Qed.


Lemma tracked_applyMorph i n v s c :
  tracked i s c -> tracked i (applyMorph n v s) (applyMorph_child n v c).
Proof.
  intros (c0 & H0 & Hm). exists (applyMorph_child n v c0).
  rewrite node_applyMorph, H0. split; [done|]. by apply applyMorph_child_congr.
Qed.





Lemma controls_before_mode io s :
  controls (animate_ears io
              (lerpMorph "mouthSmile" 0 0.12 (animate_head io (animate_levels io s))))
  = controls (animate_levels io s).
Proof.
  rewrite (scene_only_controls (animate_ears _) _ (scene_only_animate_ears _)).
  rewrite (scene_only_controls (lerpMorph _ _ _) _ (scene_only_lerpMorph _ _ _)).
  apply (scene_only_controls (animate_head _)), scene_only_animate_head.
Qed.


Lemma tracked_doBlink i io dt s c :
  tracked i s c -> tracked i (doBlink io dt s) (doBlink_child io dt s c).
Proof.
  intros Ht. unfold doBlink, doBlink_child. cbv zeta.
  fold (doBlink_fired io s).
  assert (tracked i (doBlink_fired io s) c) as Ht1.
  { unfold doBlink_fired. by destruct (blink_fires _ _). }
  destruct (bool_decide (0 < blinkT (doBlink_fired io s))); [|done].
  by do 3 apply tracked_applyMorph.
Qed.

Lemma applyMorph_child_other_inj n n' v c dict :
  morph_mesh c dict -> dict_injective dict -> n' <> n ->
  morph_value n' (applyMorph_child n v c) = morph_value n' c.
Proof.
  intros (_ & Hd & _) Hinj Hne. apply applyMorph_child_other.
  intros d k Hdk Hk Hk'. simplify_eq. apply Hne. by eapply Hinj.
Qed.



Lemma teethMesh_animate_pose io s : teethMesh (animate_pose io s) = teethMesh s.
Proof.
  pose proof (controls_animate_pose io s) as Hc. controls_of Hc.
  rewrite HteethMesh. unfold animate_mode_controls.
  destruct (animate_levels_rest io s) as (_&_&_&_&_&_&_&Ht&_).
  destruct (_mode (console_log _ _)); exact Ht.
Qed.




(** ** Rig preservation *)

Lemma rig_step_refl i s s' : node i s' = node i s -> rig_step i s s'.
Proof.
  intros H. exists Datatypes.id. rewrite option_fmap_id. split; [done|].
  apply keeps_morphs_rig, keeps_morphs_id.
Qed.

Lemma rig_step_trans i s1 s2 s3 :
  rig_step i s1 s2 -> rig_step i s2 s3 -> rig_step i s1 s3.
Proof.
  intros (F & HF & HkF) (G & HG & HkG). exists (G ∘ F).
  rewrite HG, HF, option_fmap_compose. split; [done|].
  by apply keeps_rig_compose.
Qed.

Lemma rig_step_applyMorph i n v s : rig_step i s (applyMorph n v s).
Proof.
  eexists. split; [apply node_applyMorph|]. intros c. apply rig_applyMorph_child.
Qed.

Lemma rig_step_lerpMorph i n v r s : rig_step i s (lerpMorph n v r s).
Proof.
  eexists. split; [apply node_lerpMorph|]. intros c. apply rig_lerpMorph_child.
Qed.

Lemma rig_step_with_avatar_root i cb s :
  keeps_morphs cb -> rig_step i s (with_avatar_root cb s).
Proof.
  intros Hcb. destruct (node_with_avatar_root i cb s Hcb) as (F & HF & HkF).
  exists F. split; [done|by apply keeps_morphs_rig].
Qed.

Ltac rig_peel :=
  repeat first
    [ apply rig_step_refl; reflexivity
    | eapply rig_step_trans;
      [| first [ apply rig_step_lerpMorph
               | apply rig_step_applyMorph
               | apply rig_step_with_avatar_root; by intros ? ] ] ].

Lemma rig_step_animate_mode i io dt s : rig_step i s (animate_mode io dt s).
Proof.
  unfold animate_mode. destruct (_mode s); cbv zeta; rig_peel.
Qed.

Lemma rig_step_doBlink i io dt s : rig_step i s (doBlink io dt s).
Proof.
  unfold doBlink. cbv zeta. fold (doBlink_fired io s).
  assert (rig_step i s (doBlink_fired io s)) as H1.
  { apply rig_step_refl. unfold doBlink_fired. by destruct (blink_fires _ _). }
  destruct (bool_decide _); [|done].
  eapply rig_step_trans; [exact H1|]. rig_peel.
Qed.

Lemma rig_step_animate_pose i io s : rig_step i s (animate_pose io s).
Proof.
  unfold animate_pose. cbv zeta.
  eapply rig_step_trans; [apply rig_step_refl, node_animate_levels|].
  eapply rig_step_trans.
  { destruct (node_animate_head i io (animate_levels io s)) as (F & HF & HkF).
    exists F. split; [done|by apply keeps_morphs_rig]. }
  eapply rig_step_trans; [apply rig_step_lerpMorph|].
  eapply rig_step_trans.
  { destruct (node_animate_ears i io
                (lerpMorph "mouthSmile" 0 0.12
                   (animate_head io (animate_levels io s)))) as (F & HF & HkF).
    exists F. split; [done|by apply keeps_morphs_rig]. }
  eapply rig_step_trans; [|apply rig_step_animate_mode].
  by apply rig_step_refl.
Qed.

Lemma rig_step_animate i io s : rig_step i s (state_of (animate io s)).
Proof.
  rewrite animate_unfold.
  destruct (animate_teeth (animate_pose io s)) as [s'|] eqn:Et; simpl.
  - eapply rig_step_trans; [apply rig_step_animate_pose|].
    eapply rig_step_trans; [|apply rig_step_doBlink].
    destruct (node_animate_teeth i _ _ Et) as (F & HF & HkF & _). by exists F.
  - apply rig_step_animate_pose.
Qed.

Lemma channel_absent_rig_step n s s' :
  (forall i, rig_step i s s') -> channel_absent n s -> channel_absent n s'.
Proof.
  intros Hstep Habs i c' dict Hn Hm Hd.
  destruct (Hstep i) as (F & HF & HkF). rewrite HF in Hn.
  destruct (node i s) as [c|] eqn:Ec; [|done]. simpl in Hn. simplify_eq.
  specialize (HkF c). unfold rig in HkF. simplify_eq.
  eapply (Habs i c dict); congruence.
Qed.

Lemma channel_absent_frames n ios s :
  channel_absent n s -> channel_absent n (run (frames ios) s).
Proof.
  revert s. induction ios as [|io ios IH]; intros s Habs; [done|].
  rewrite run_frames_cons.
  apply IH. eapply channel_absent_rig_step; [|exact Habs].
  intros i. apply rig_step_animate.
Qed.

Lemma traverse_unchanged cb (g : Group) :
  (forall i c, g !! i = Some c -> cb c = c) -> traverse cb g = g.
Proof.
  intros H. unfold traverse. apply list_eq. intros i.
  rewrite list_lookup_fmap. destruct (g !! i) as [c|] eqn:E; [|done].
  simpl. by rewrite (H i c).
Qed.

(** ** Morph channels *)

(** C9: a direct or a lerp write to a channel that no mesh of the avatar has
    returns the state it was given: no exception, no log entry, no other
    channel touched; whatever runs afterwards runs as if the write had not
    been made, and the channel stays absent on every later frame. *)
Theorem absent_channel_write_is_noop (n : string) (s : State) (v to rate : R) :
  channel_absent n s ->
  applyMorph n v s = s /\
  lerpMorph n to rate s = s /\
  (forall es, run es (applyMorph n v s) = run es s) /\
  (forall es, run es (lerpMorph n to rate s) = run es s) /\
  (forall ios, channel_absent n (run (frames ios) s)).
Proof.
  intros Habs.
  assert (applyMorph n v s = s) as Ha.
  { unfold applyMorph. destruct (avatar s) as [g|] eqn:E; [|done].
    rewrite traverse_unchanged; [rewrite <- E; apply set_avatar_same|].
    intros i c Hc. apply applyMorph_child_absent. intros Hm dict Hd.
    apply (Habs i c dict); [|done..]. unfold node. by rewrite E. }
  assert (lerpMorph n to rate s = s) as Hl.
  { unfold lerpMorph. destruct (avatar s) as [g|] eqn:E; [|done].
    rewrite traverse_unchanged; [rewrite <- E; apply set_avatar_same|].
    intros i c Hc. apply lerpMorph_child_absent. intros Hm dict Hd.
    apply (Habs i c dict); [|done..]. unfold node. by rewrite E. }
  rewrite Ha, Hl. repeat split; try done.
  intros ios. by apply channel_absent_frames.
Qed.




(** ** The blink scheduler *)

Lemma blink_phase_mid : blink_phase 0.5 = 1.
Proof.
  unfold blink_phase. rewrite Rmax_left by lra.
  replace (1 - 0.5 * 2) with 0 by lra. rewrite Rabs_R0. lra.
Qed.

Lemma blink_phase_range p : p <= 1 -> 0 <= blink_phase p <= 1.
Proof.
  intros Hp. unfold blink_phase, Rmax, Rabs.
  destruct (Rle_dec p 0); destruct (Rcase_abs _); lra.
Qed.

Lemma blink_phase_end p : p <= 0 -> blink_phase p = 0.
Proof.
  intros Hp. unfold blink_phase. rewrite Rmax_right by lra.
  replace (1 - 0 * 2) with 1 by lra. rewrite Rabs_R1. lra.
Qed.

Lemma blink_fires_true now s :
  blink_fires now s = true <-> nextBlinkAt s <= now /\ blinkT s <= 0.
Proof.
  unfold blink_fires. rewrite andb_true_iff, !bool_decide_eq_true. done.
Qed.

Lemma blink_fires_active now s : 0 < blinkT s -> blink_fires now s = false.
Proof.
  intros H. apply not_true_is_false. rewrite blink_fires_true. lra.
Qed.

Lemma blinkT_doBlink io dt s :
  blinkT (doBlink io dt s) = blinkT (doBlink_controls io dt s) /\
  nextBlinkAt (doBlink io dt s) = nextBlinkAt (doBlink_controls io dt s).
Proof.
  pose proof (controls_doBlink io dt s) as H. by controls_of H.
Qed.

Lemma doBlink_controls_active io dt s :
  0 < blinkT s ->
  doBlink_controls io dt s = set_blinkT (blinkT s - dt * 6) s.
Proof.
  intros H. unfold doBlink_controls. rewrite blink_fires_active by done.
  cbv zeta. by rewrite bool_decide_true.
Qed.

Lemma doBlink_controls_fires io dt s :
  blink_fires (now_blink io) s = true ->
  doBlink_controls io dt s
  = set_blinkT (1 - dt * 6)
      (scheduleNextBlink (now_sched io) (random io) (set_blinkT 1.0 s)).
Proof.
  intros H. unfold doBlink_controls. rewrite H. cbv zeta.
  rewrite bool_decide_true by (simpl; lra). simpl.
  unfold set_blinkT, scheduleNextBlink, set_nextBlinkAt. simpl.
  f_equal. lra.
Qed.

Lemma doBlink_controls_waiting io dt s :
  blinkT s <= 0 -> blink_fires (now_blink io) s = false ->
  doBlink_controls io dt s = s.
Proof.
  intros H Hf. unfold doBlink_controls. rewrite Hf. cbv zeta.
  by rewrite bool_decide_false by lra.
Qed.

Lemma doBlink_waiting io dt s :
  blinkT s <= 0 -> blink_fires (now_blink io) s = false ->
  doBlink io dt s = s.
Proof.
  intros H Hf. unfold doBlink. rewrite Hf. cbv zeta.
  by rewrite bool_decide_false by lra.
Qed.

Lemma doBlink_controls_le_1 io dt s :
  0 <= dt -> blinkT s <= 1 -> blinkT (doBlink_controls io dt s) <= 1.
Proof.
  intros Hdt Hs.
  destruct (blink_fires (now_blink io) s) eqn:Hf.
  - rewrite doBlink_controls_fires by done. simpl. lra.
  - destruct (decide (0 < blinkT s)) as [Ha|Hw].
    + rewrite doBlink_controls_active by done. simpl. lra.
    + rewrite doBlink_controls_waiting; [done|lra|done].
Qed.

Lemma blinkT_before_doBlink io s :
  blinkT (animate_mode_controls (clock_delta io)
            (console_log (LogMode (_mode s)) (animate_levels io s)))
  = blinkT s /\
  nextBlinkAt (animate_mode_controls (clock_delta io)
                 (console_log (LogMode (_mode s)) (animate_levels io s)))
  = nextBlinkAt s.
Proof.
  destruct (animate_levels_rest io s) as (_&_&Hb&Hn&_).
  unfold animate_mode_controls. destruct (_mode (console_log _ _)); by simpl.
Qed.

Lemma blinkT_controls s s' : controls s = controls s' -> blinkT s = blinkT s'.
Proof. intros H. by controls_of H. Qed.

Lemma dancePhase_controls s s' :
  controls s = controls s' -> dancePhase s = dancePhase s'.
Proof. intros H. by controls_of H. Qed.

Lemma nextBlinkAt_controls s s' :
  controls s = controls s' -> nextBlinkAt s = nextBlinkAt s'.
Proof. intros H. by controls_of H. Qed.

(** The blink state a frame leaves: untouched when the frame ends in an
    exception, and what [doBlink] computes from the state before otherwise. *)
Lemma animate_blink_state io s :
  (blinkT (state_of (animate io s)) = blinkT s /\
   nextBlinkAt (state_of (animate io s)) = nextBlinkAt s) \/
  (blinkT (state_of (animate io s))
   = blinkT (doBlink_controls io (clock_delta io) s) /\
   nextBlinkAt (state_of (animate io s))
   = nextBlinkAt (doBlink_controls io (clock_delta io) s)).
Proof.
  destruct (blinkT_before_doBlink io s) as [Hb Hn].
  set (s1 := animate_mode_controls _ _) in *.
  assert (controls (doBlink_controls io (clock_delta io) s1)
          = controls (doBlink_controls io (clock_delta io)
                        (set_nextBlinkAt (nextBlinkAt s) (set_blinkT (blinkT s) s1))))
    as H1.
  { apply controls_doBlink_congr. rewrite <- Hb, <- Hn. by destruct s1. }
  assert (blinkT (doBlink_controls io (clock_delta io)
                    (set_nextBlinkAt (nextBlinkAt s) (set_blinkT (blinkT s) s1)))
          = blinkT (doBlink_controls io (clock_delta io) s) /\
          nextBlinkAt (doBlink_controls io (clock_delta io)
                    (set_nextBlinkAt (nextBlinkAt s) (set_blinkT (blinkT s) s1)))
          = nextBlinkAt (doBlink_controls io (clock_delta io) s)) as [H2 H3].
  { unfold doBlink_controls, blink_fires, scheduleNextBlink. cbn.
    destruct (_ && _); cbn; destruct (bool_decide _); by cbn. }
  destruct (controls_animate io s) as [H|H]; fold s1 in H.
  - left. rewrite (blinkT_controls _ _ H), (nextBlinkAt_controls _ _ H). done.
  - right. rewrite (blinkT_controls _ _ H), (nextBlinkAt_controls _ _ H).
    rewrite (blinkT_controls _ _ H1), (nextBlinkAt_controls _ _ H1). done.
Qed.

Lemma loadAvatar_onLoad_blink scene now rnd s :
  blinkT (loadAvatar_onLoad scene now rnd s) = blinkT s /\
  nextBlinkAt (loadAvatar_onLoad scene now rnd s) = now + 2000 + rnd * 4000.
Proof.
  unfold loadAvatar_onLoad, scheduleNextBlink. cbv zeta.
  set (s1 := set_teethMesh _ _). set (g := traverse _ _).
  by destruct (log_morphs_fields g s1) as [l ->].
Qed.

Lemma step_blinkT_le_1 e s :
  nonneg_delta e -> blinkT s <= 1 -> blinkT (step e s) <= 1.
Proof.
  intros He Hs. destruct e; cbn [step]; try done.
  - destruct (animate_blink_state io s) as [[-> _]|[-> _]]; [done|].
    by apply doBlink_controls_le_1.
  - by rewrite (proj1 (loadAvatar_onLoad_blink scene now rnd s)).
  - unfold stopDance. by destruct (_mode _).
Qed.

Lemma doBlink_controls_blink_congr io dt a b :
  blinkT a = blinkT b -> nextBlinkAt a = nextBlinkAt b ->
  blinkT (doBlink_controls io dt a) = blinkT (doBlink_controls io dt b) /\
  nextBlinkAt (doBlink_controls io dt a) = nextBlinkAt (doBlink_controls io dt b).
Proof.
  intros Hb Hn. unfold doBlink_controls, blink_fires, scheduleNextBlink.
  cbv zeta. rewrite Hb, Hn.
  destruct (_ && _); cbn; [|rewrite Hb]; destruct (bool_decide _); by cbn.
Qed.

Lemma blink_state_after_teeth io s s' :
  animate_teeth (animate_pose io s) = Some s' ->
  blinkT s' = blinkT s /\ nextBlinkAt s' = nextBlinkAt s.
Proof.
  intros Et. apply animate_teeth_scene_only in Et as [g ->].
  pose proof (controls_animate_pose io s) as Hc.
  destruct (blinkT_before_doBlink io s) as [Hb Hn].
  rewrite (blinkT_controls _ _ (controls_set_avatar g _)).
  rewrite (nextBlinkAt_controls _ _ (controls_set_avatar g _)).
  by rewrite (blinkT_controls _ _ Hc), (nextBlinkAt_controls _ _ Hc).
Qed.







(** Without an avatar a frame only updates the levels, the log, the dance
    state and the blink state. *)
Lemma applyMorph_no_avatar n v s : avatar s = None -> applyMorph n v s = s.
Proof. intros H. unfold applyMorph. by rewrite H. Qed.

Lemma lerpMorph_no_avatar n v r s : avatar s = None -> lerpMorph n v r s = s.
Proof. intros H. unfold lerpMorph. by rewrite H. Qed.

Lemma with_avatar_root_no_avatar cb s :
  avatar s = None -> with_avatar_root cb s = s.
Proof. intros H. unfold with_avatar_root. by rewrite H. Qed.

Lemma animate_head_no_avatar io s : avatar s = None -> animate_head io s = s.
Proof. intros H. unfold animate_head. by rewrite H. Qed.

Lemma animate_ears_no_avatar io s : avatar s = None -> animate_ears io s = s.
Proof. intros H. unfold animate_ears. by rewrite H. Qed.

Lemma animate_teeth_no_avatar s : avatar s = None -> animate_teeth s = Some s.
Proof. intros H. unfold animate_teeth. rewrite H. by repeat case_match. Qed.

Lemma animate_mode_no_avatar io dt s :
  avatar s = None -> animate_mode io dt s = animate_mode_controls dt s.
Proof.
  intros H. unfold animate_mode, animate_mode_controls.
  destruct (_mode s); cbv zeta;
    repeat first [ rewrite applyMorph_no_avatar by done
                 | rewrite lerpMorph_no_avatar by done
                 | rewrite with_avatar_root_no_avatar by done ];
    reflexivity.
Qed.

Lemma doBlink_no_avatar io dt s :
  avatar s = None -> doBlink io dt s = doBlink_controls io dt s.
Proof.
  intros H. unfold doBlink, doBlink_controls. cbv zeta.
  set (s1 := if blink_fires _ _ then _ else s).
  assert (avatar s1 = None) as H1 by (unfold s1; by destruct (blink_fires _ _)).
  destruct (bool_decide _); [|done].
  set (s2 := set_blinkT _ s1).
  assert (avatar s2 = None) as H2 by exact H1.
  rewrite (applyMorph_no_avatar "eyeBlinkLeft" _ _ H2).
  rewrite (applyMorph_no_avatar "eyeBlinkRight" _ _ H2).
  by rewrite (applyMorph_no_avatar "eyesClosed" _ _ H2).
Qed.

Lemma animate_no_avatar io s :
  avatar s = None ->
  animate io s
  = Done (doBlink_controls io (clock_delta io)
            (animate_mode_controls (clock_delta io)
               (console_log (LogMode (_mode s)) (animate_levels io s)))).
Proof.
  intros Ha.
  destruct (animate_levels_rest io s) as (Hm&_&_&_&_&Hav&_).
  rewrite Ha in Hav.
  unfold animate, animate_pose. cbv zeta.
  rewrite (animate_head_no_avatar _ _ Hav).
  rewrite (lerpMorph_no_avatar _ _ _ _ Hav).
  rewrite (animate_ears_no_avatar _ _ Hav). rewrite Hm.
  rewrite animate_mode_no_avatar by exact Hav.
  set (s2 := animate_mode_controls _ _).
  assert (avatar s2 = None) as H2.
  { unfold s2, animate_mode_controls. by destruct (_mode _). }
  rewrite (animate_teeth_no_avatar _ H2).
  by rewrite (doBlink_no_avatar _ _ _ H2).
Qed.

(** C6: the envelope [1 - |1 - 2 max(progress, 0)|] is exactly 1 at progress
    0.5, lies in [0, 1] for every progress up to 1, and is 0 once the progress
    is 0 or less; with clock deltas that are not negative the progress never
    exceeds 1, an active blink loses [dt * 6] per frame, frames adding up
    to 1/6 s bring any blink back to waiting, and a waiting scheduler that
    does not start a blink leaves the state as it is. *)
Theorem blink_envelope_triangular :
  blink_phase 0.5 = 1 /\
  (forall p, p <= 1 -> 0 <= blink_phase p <= 1) /\
  (forall p, p <= 0 -> blink_phase p = 0) /\
  (forall es s, Forall nonneg_delta es -> blinkT s <= 1 ->
                blinkT (run es s) <= 1 /\
                0 <= blink_phase (blinkT (run es s)) <= 1) /\
  (forall io dt s, 0 < blinkT s ->
                   blinkT (doBlink io dt s) = blinkT s - dt * 6) /\
  (forall ios s, Forall (fun io => 0 <= clock_delta io) ios ->
                 blinkT s <= 1 -> 1 / 6 <= total_delta ios ->
                 exists k, (k <= length ios)%nat /\
                           blinkT (blink_run (take k ios) s) <= 0) /\
  (forall io dt s, blinkT s <= 0 -> blink_fires (now_blink io) s = false ->
                   doBlink io dt s = s).
Proof.
  split; [apply blink_phase_mid|].
  split; [apply blink_phase_range|].
  split; [apply blink_phase_end|].
  split; [|split; [|split]].
  - assert (forall es s, Forall nonneg_delta es -> blinkT s <= 1 ->
                         blinkT (run es s) <= 1) as Hinv.
    { intros es. induction es as [|e es IH]; intros s Hes Hs; [done|].
      apply Forall_cons in Hes as [He Hes].
      rewrite run_cons.
      apply IH; [done|]. by apply step_blinkT_le_1. }
    intros es s Hes Hs. split; [by apply Hinv|].
    apply blink_phase_range. by apply Hinv.
  - intros io dt s Ha. rewrite (proj1 (blinkT_doBlink _ _ _)).
    by rewrite doBlink_controls_active.
  - assert (forall ios s, Forall (fun io => 0 <= clock_delta io) ios ->
              blinkT s <= 6 * total_delta ios ->
              exists k, (k <= length ios)%nat /\
                        blinkT (blink_run (take k ios) s) <= 0) as Hgen.
    { intros ios. induction ios as [|io ios IH]; intros s Hdt Hs.
      - exists 0%nat. split; [done|]. simpl in *. lra.
      - destruct (decide (blinkT s <= 0)) as [Hw|Ha].
        + exists 0%nat. split; [simpl; lia|done].
        + apply Forall_cons in Hdt as [Hd Hdt].
          destruct (IH (doBlink io (clock_delta io) s)) as (k & Hk & Hend).
          * done.
          * rewrite (proj1 (blinkT_doBlink _ _ _)).
            rewrite doBlink_controls_active by lra. simpl in *. lra.
          * exists (S k). split; [simpl; lia|exact Hend]. }
    intros ios s Hdt Hs Htot. apply Hgen; [done|lra].
  - intros io dt s. apply doBlink_waiting.
Qed.


(** C8, as the code has it: a frame that ends normally hands the clock delta
    as it is to the blink progress and, in dance mode, to the dance phase:
    an active or starting blink loses exactly [dt * 6], for every [dt]. *)
Theorem clock_delta_used_as_is (io : Frame) (s s' : State) :
  animate io s = Done s' ->
  let dt := clock_delta io in
  let b := if blink_fires (now_blink io) s then 1 else blinkT s in
  blinkT s' = (if bool_decide (0 < b) then b - dt * 6 else b) /\
  dancePhase s' = match _mode s with
                  | dance => dancePhase s + dt
                  | _ => dancePhase s
                  end.
Proof.
  intros Hdone dt b. subst dt. rewrite animate_unfold in Hdone.
  destruct (animate_teeth (animate_pose io s)) as [s1|] eqn:Et; [|done].
  injection Hdone as <-.
  destruct (blink_state_after_teeth io s s1 Et) as [Hb Hn].
  split.
  - rewrite (proj1 (blinkT_doBlink _ _ _)).
    rewrite (proj1 (doBlink_controls_blink_congr io (clock_delta io) s1 s Hb Hn)).
    unfold doBlink_controls, b. cbv zeta.
    destruct (blink_fires (now_blink io) s); cbn.
    + rewrite !bool_decide_true by lra. cbn. lra.
    + by destruct (bool_decide _).
  - rewrite (dancePhase_controls _ _ (controls_doBlink io (clock_delta io) s1)).
    assert (dancePhase (doBlink_controls io (clock_delta io) s1) = dancePhase s1) as ->.
    { unfold doBlink_controls. cbv zeta.
      destruct (blink_fires (now_blink io) s1); cbn;
        by destruct (bool_decide _). }
    apply animate_teeth_scene_only in Et as [g ->].
    rewrite (dancePhase_controls _ _ (controls_set_avatar g _)).
    rewrite (dancePhase_controls _ _ (controls_animate_pose io s)).
    destruct (animate_levels_rest io s) as (Hm & Hd & _).
    unfold animate_mode_controls.
    change (_mode (console_log (LogMode (_mode s)) (animate_levels io s)))
      with (_mode (animate_levels io s)).
    rewrite Hm. destruct (_mode s); cbn; by rewrite Hd.
Qed.

(** ** Dance *)

Lemma doBlink_controls_rest io dt s :
  _mode (doBlink_controls io dt s) = _mode s /\
  dancePhase (doBlink_controls io dt s) = dancePhase s /\
  avatar (doBlink_controls io dt s) = avatar s.
Proof.
  unfold doBlink_controls. cbv zeta.
  destruct (blink_fires (now_blink io) s); cbn; by destruct (bool_decide _).
Qed.

Lemma mode_before_mode_case io s :
  _mode (animate_ears io
           (lerpMorph "mouthSmile" 0 0.12 (animate_head io (animate_levels io s))))
  = _mode s.
Proof.
  pose proof (controls_before_mode io s) as Hc. controls_of Hc.
  rewrite Hmode. apply animate_levels_rest.
Qed.

Lemma animate_mode_field io s : _mode (state_of (animate io s)) = _mode s.
Proof.
  assert (_mode (animate_mode_controls (clock_delta io)
                   (console_log (LogMode (_mode s)) (animate_levels io s)))
          = _mode s) as Hm.
  { unfold animate_mode_controls.
    destruct (animate_levels_rest io s) as (Hm&_).
    destruct (_mode (console_log _ _)) eqn:E; cbn; exact Hm. }
  destruct (controls_animate io s) as [H|H]; controls_of H; rewrite Hmode.
  - exact Hm.
  - by rewrite (proj1 (doBlink_controls_rest _ _ _)).
Qed.

Lemma animate_dancePhase io s :
  dancePhase (state_of (animate io s))
  = match _mode s with
    | dance => dancePhase s + clock_delta io
    | _ => dancePhase s
    end.
Proof.
  assert (dancePhase (animate_mode_controls (clock_delta io)
                        (console_log (LogMode (_mode s)) (animate_levels io s)))
          = match _mode s with
            | dance => dancePhase s + clock_delta io
            | _ => dancePhase s
            end) as Hd.
  { unfold animate_mode_controls.
    destruct (animate_levels_rest io s) as (Hm&Hd&_).
    change (_mode (console_log (LogMode (_mode s)) (animate_levels io s)))
      with (_mode (animate_levels io s)).
    rewrite Hm. destruct (_mode s); cbn; by rewrite Hd. }
  destruct (controls_animate io s) as [H|H];
    rewrite (dancePhase_controls _ _ H); [exact Hd|].
  by rewrite (proj1 (proj2 (doBlink_controls_rest _ _ _))).
Qed.

Lemma frames_keep_mode ios s : _mode (run (frames ios) s) = _mode s.
Proof.
  revert s. induction ios as [|io ios IH]; intros s; [done|].
  rewrite run_frames_cons, IH. apply animate_mode_field.
Qed.

Lemma frames_outside_dance_keep_phase ios s :
  _mode s <> dance -> dancePhase (run (frames ios) s) = dancePhase s.
Proof.
  revert s. induction ios as [|io ios IH]; intros s Hm; [done|].
  rewrite run_frames_cons, IH.
  - rewrite animate_dancePhase. by destruct (_mode s).
  - by rewrite animate_mode_field.
Qed.

Lemma pose_applyMorph_child n v c : pose (applyMorph_child n v c) = pose c.
Proof. unfold applyMorph_child. by repeat case_match. Qed.

Lemma pose_lerpMorph_child n v r c : pose (lerpMorph_child n v r c) = pose c.
Proof. unfold lerpMorph_child. by repeat case_match. Qed.

Lemma pose_fields c1 c2 :
  pose c1 = pose c2 ->
  position c1 = position c2 /\ rotation c1 = rotation c2 /\ scale c1 = scale c2.
Proof. unfold pose. intros H. by simplify_eq. Qed.

Lemma node_animate_teeth_pose i s s' :
  animate_teeth s = Some s' ->
  exists F, node i s' = F <$> node i s /\ keeps_pose F.
Proof.
  unfold animate_teeth. intros H.
  assert (node i s = Datatypes.id <$> node i s) as Hid by by rewrite option_fmap_id.
  repeat case_match; simplify_eq;
    try (exists Datatypes.id; split; [done|]; by intros c).
  unfold node at 1. simpl. rewrite lookup_update_node.
  match goal with H : avatar s = Some ?g |- _ =>
    assert (node i s = g !! i) as -> by (unfold node; by rewrite H) end.
  eexists; split; [done|]. by case_decide; intros c.
Qed.

Lemma node_doBlink_pose i io dt s :
  exists F, node i (doBlink io dt s) = F <$> node i s /\ keeps_pose F.
Proof.
  unfold doBlink. cbv zeta. fold (doBlink_fired io s).
  assert (node i (doBlink_fired io s) = node i s) as H1.
  { unfold doBlink_fired. by destruct (blink_fires _ _). }
  destruct (bool_decide _).
  - rewrite !node_applyMorph.
    change (node i (set_blinkT _ (doBlink_fired io s)))
      with (node i (doBlink_fired io s)).
    rewrite H1, <- !option_fmap_compose.
    eexists. split; [done|]. intros c. simpl.
    by rewrite !pose_applyMorph_child.
  - exists Datatypes.id. rewrite H1, option_fmap_id. split; [done|by intros c].
Qed.

Lemma node_before_mode_case i io s c :
  node i s = Some c ->
  is_Some (node i (console_log (LogMode (_mode s))
                     (animate_ears io
                        (lerpMorph "mouthSmile" 0 0.12
                           (animate_head io (animate_levels io s)))))).
Proof.
  intros Hc.
  change (node i (console_log ?e ?x)) with (node i x).
  destruct (node_animate_ears i io
              (lerpMorph "mouthSmile" 0 0.12 (animate_head io (animate_levels io s))))
    as (F & -> & _).
  rewrite node_lerpMorph.
  destruct (node_animate_head i io (animate_levels io s)) as (G & -> & _).
  rewrite node_animate_levels, Hc. by eexists.
Qed.

(** The pose the dance case gives the group, at the end of the frame. *)
Lemma dance_root_pose io s c :
  _mode s = dance -> node 0 s = Some c ->
  exists c',
    node 0 (state_of (animate io s)) = Some c' /\
    vy (position c') = sin (now_mode io * 0.001 * 4) * 0.05 + 0.02 /\
    vy (rotation c') = sin (now_mode io * 0.001 * 2) * 0.25 /\
    vz (rotation c') = sin (now_mode io * 0.001 * 3.2) * 0.07.
Proof.
  intros Hm Hc.
  assert (exists c1, node 0 (animate_pose io s) = Some c1 /\
            vy (position c1) = sin (now_mode io * 0.001 * 4) * 0.05 + 0.02 /\
            vy (rotation c1) = sin (now_mode io * 0.001 * 2) * 0.25 /\
            vz (rotation c1) = sin (now_mode io * 0.001 * 3.2) * 0.07)
    as (c1 & Hc1 & Hp).
  { unfold animate_pose. cbv zeta. rewrite (mode_before_mode_case io s).
    destruct (node_before_mode_case 0 io s c Hc) as [c0 Hc0].
    set (s4 := console_log _ _) in *.
    unfold animate_mode.
    change (_mode s4) with (_mode (animate_ears io
           (lerpMorph "mouthSmile" 0 0.12 (animate_head io (animate_levels io s))))).
    rewrite (mode_before_mode_case io s), Hm. cbv zeta.
    rewrite node_lerpMorph, node_applyMorph.
    set (s5 := set_dancePhase _ _).
    assert (node 0 s5 = Some c0) as Hc5 by exact Hc0.
    unfold node at 1, with_avatar_root.
    unfold node in Hc5. destruct (avatar s5) as [g|] eqn:Eg; [|done].
    simpl in Hc5. simpl. unfold update_root. rewrite lookup_update_node.
    rewrite decide_True by done. rewrite Hc5. simpl.
    eexists. split; [done|].
    match goal with
    | |- context [lerpMorph_child ?n ?v ?r (applyMorph_child ?n' ?v' ?x)] =>
      destruct (pose_fields _ _ (pose_lerpMorph_child n v r (applyMorph_child n' v' x)))
        as (-> & -> & _);
      destruct (pose_fields _ _ (pose_applyMorph_child n' v' x)) as (-> & -> & _)
    end.
    by cbn. }
  rewrite animate_unfold.
  destruct (animate_teeth (animate_pose io s)) as [s'|] eqn:Et; simpl.
  - destruct (node_animate_teeth_pose 0 _ _ Et) as (F & HF & HkF).
    destruct (node_doBlink_pose 0 io (clock_delta io) s') as (G & HG & HkG).
    exists (G (F c1)). rewrite HG, HF, Hc1. split; [done|].
    destruct (pose_fields _ _ (HkG (F c1))) as (-> & -> & _).
    by destruct (pose_fields _ _ (HkF c1)) as (-> & -> & _).
  - by exists c1.
Qed.

Lemma step_dancePhase e s :
  match e with
  | EvAnimate _ => True
  | _ => dancePhase (step e s) = dancePhase s
  end.
Proof.
  destruct e; try done; cbn [step].
  - unfold loadAvatar_onLoad, scheduleNextBlink. cbv zeta.
    set (s1 := set_teethMesh _ _). set (g := traverse _ _).
    by destruct (log_morphs_fields g s1) as [l ->].
  - unfold stopDance. by destruct (_mode _).
Qed.

Lemma stopDance_not_dance s : _mode (stopDance s) <> dance.
Proof. unfold stopDance. destruct s as [? ? ? ? ? m ? ? ? ? ? ? ?]. by destruct m. Qed.

Lemma stopDance_dancePhase s : dancePhase (stopDance s) = dancePhase s.
Proof. unfold stopDance. by destruct (_mode _). Qed.

(** C1, as the code has it: on every dance frame the group's position-Y and
    rotation-Y/Z are sinusoids of the wall clock [t = performance.now() *
    0.001], not of the dance-phase accumulator; the accumulator gains the
    clock delta on every dance frame, is changed by nothing else and is never
    reset, so after [stopDance()], any frames and [startDance()] it is what
    it was, and the next dance frame adds its delta to it. *)
Theorem dance_pose_follows_wall_clock :
  (forall io s c,
     _mode s = dance -> node 0 s = Some c ->
     exists c',
       node 0 (state_of (animate io s)) = Some c' /\
       vy (position c') = sin (now_mode io * 0.001 * 4) * 0.05 + 0.02 /\
       vy (rotation c') = sin (now_mode io * 0.001 * 2) * 0.25 /\
       vz (rotation c') = sin (now_mode io * 0.001 * 3.2) * 0.07) /\
  (forall io s,
     dancePhase (state_of (animate io s))
     = match _mode s with
       | dance => dancePhase s + clock_delta io
       | _ => dancePhase s
       end) /\
  (forall e s,
     match e with
     | EvAnimate _ => True
     | _ => dancePhase (step e s) = dancePhase s
     end) /\
  (forall ios io s,
     dancePhase (startDance (run (frames ios) (stopDance s))) = dancePhase s /\
     dancePhase (state_of (animate io (startDance (run (frames ios) (stopDance s)))))
     = dancePhase s + clock_delta io).
Proof.
  split; [apply dance_root_pose|].
  split; [apply animate_dancePhase|].
  split; [apply step_dancePhase|].
  intros ios io s.
  assert (dancePhase (startDance (run (frames ios) (stopDance s))) = dancePhase s)
    as Hp.
  { change (dancePhase (startDance ?x)) with (dancePhase x).
    rewrite frames_outside_dance_keep_phase by apply stopDance_not_dance.
    apply stopDance_dancePhase. }
  split; [exact Hp|]. rewrite animate_dancePhase.
  change (_mode (startDance ?x)) with dance. cbv iota. by rewrite Hp.
Qed.

Lemma animate_no_avatar_blink io s :
  avatar s = None ->
  blinkT (state_of (animate io s))
  = blinkT (doBlink_controls io (clock_delta io) s) /\
  nextBlinkAt (state_of (animate io s))
  = nextBlinkAt (doBlink_controls io (clock_delta io) s) /\
  avatar (state_of (animate io s)) = None.
Proof.
  intros Ha. rewrite animate_no_avatar by done. cbn [state_of].
  destruct (blinkT_before_doBlink io s) as [Hb Hn].
  set (s1 := animate_mode_controls _ _) in *.
  destruct (doBlink_controls_blink_congr io (clock_delta io) s1 s Hb Hn)
    as [-> ->].
  split; [done|]. split; [done|].
  rewrite (proj2 (proj2 (doBlink_controls_rest _ _ _))).
  unfold s1, animate_mode_controls.
  destruct (animate_levels_rest io s) as (_&_&_&_&_&Hav&_).
  destruct (_mode (console_log _ _)); cbn; congruence.
Qed.


(** ** The claims the code does not keep, at concrete inputs *)

(** C1 does not hold as stated: two dance frames that leave the same
    dance-phase accumulator leave different position-Y, so the pose is not a
    function of the accumulator. *)
Lemma dance_pose_not_a_function_of_phase :
  dancePhase (state_of (animate dance_frame_a dance_state))
  = dancePhase (state_of (animate dance_frame_b dance_state)) /\
  (fun c => vy (position c)) <$> node 0 (state_of (animate dance_frame_a dance_state))
  <> (fun c => vy (position c)) <$> node 0 (state_of (animate dance_frame_b dance_state)).
Proof.
  split; [by rewrite !animate_dancePhase|].
  destruct (dance_root_pose dance_frame_a dance_state bare_group eq_refl eq_refl)
    as (ca & -> & Ha & _).
  destruct (dance_root_pose dance_frame_b dance_state bare_group eq_refl eq_refl)
    as (cb & -> & Hb & _).
  cbn [fmap option_fmap option_map]. rewrite Ha, Hb. cbn [now_mode dance_frame_a dance_frame_b].
  replace (0 * 0.001 * 4) with 0 by lra. replace (250 * 0.001 * 4) with 1 by lra.
  rewrite sin_0.
  assert (0 < sin 1) as Hs.
  { apply sin_gt_0; [lra|]. pose proof PI2_3_2. lra. }
  intros Heq. injection Heq as Heq. lra.
Qed.


(** C8 does not hold as stated: the first frame of a component has clock
    delta 0 and leaves the blink it starts at progress 1, which no positive
    delta would; a negative delta takes the progress to 7. *)
Lemma zero_and_negative_delta_reach_blink :
  blinkT (state_of (animate first_frame initial)) = 1 /\
  ~ (exists eps, 0 < eps /\
       blinkT (state_of (animate first_frame initial))
       = blinkT (state_of (animate (with_delta eps first_frame) initial))) /\
  blinkT (state_of (animate (with_delta (-1) first_frame) initial)) = 7.
Proof.
  assert (forall dt, blinkT (state_of (animate (with_delta dt first_frame) initial))
                     = 1 - dt * 6) as Hdt.
  { intros dt.
    rewrite (proj1 (animate_no_avatar_blink _ initial eq_refl)).
    rewrite doBlink_controls_fires; [done|].
    apply blink_fires_true. simpl. lra. }
  assert (blinkT (state_of (animate first_frame initial)) = 1) as H0.
  { change first_frame with (with_delta 0 first_frame). rewrite Hdt. lra. }
  split; [exact H0|]. split.
  - intros (eps & Heps & Heq). rewrite H0, Hdt in Heq. lra.
  - rewrite Hdt. lra.
Qed.

(** ** The theorems at concrete inputs *)





Lemma head_state_mouthFrown_absent m : channel_absent "mouthFrown" (head_state m).
Proof.
  intros i c dict Hn Hm Hd.
  destruct i as [|[|i]]; cbn in Hn; simplify_eq; try done.
  cbn in Hd. by simplify_eq.
Qed.

Lemma dance_pose_follows_wall_clock_witness :
  exists c',
    node 0 (state_of (animate dance_frame_b dance_state)) = Some c' /\
    vy (position c') = sin (now_mode dance_frame_b * 0.001 * 4) * 0.05 + 0.02.
Proof.
  destruct (proj1 dance_pose_follows_wall_clock dance_frame_b dance_state
              bare_group eq_refl eq_refl) as (c' & H1 & H2 & _).
  by exists c'.
Defined.



Lemma pullLevel_ema_and_decay_witness :
  outLevel (run (frames [first_frame; first_frame]) (set_outLevel 1 initial))
  = outLevel (set_outLevel 1 initial) * 0.95 ^ length [first_frame; first_frame].
Proof.
  apply (proj2 (proj2 (proj2 (proj2 pullLevel_ema_and_decay)))).
  right. repeat constructor.
Defined.

Lemma levels_stay_in_unit_interval_witness :
  0 <= outLevel (run loud_events initial) <= 1 /\
  0 <= inLevel (run loud_events initial) <= 1.
Proof.
  apply levels_stay_in_unit_interval; simpl; lra.
Defined.

Lemma blink_envelope_triangular_witness :
  exists k, (k <= length tenth_frames)%nat /\
            blinkT (blink_run (take k tenth_frames) (set_blinkT 1 initial)) <= 0.
Proof.
  apply (proj1 (proj2 (proj2 (proj2 (proj2 (proj2 blink_envelope_triangular)))))).
  - repeat constructor; simpl; lra.
  - simpl. lra.
  - simpl. lra.
Defined.


Lemma clock_delta_used_as_is_witness :
  exists s', animate first_frame initial = Done s' /\ blinkT s' = 1.
Proof.
  pose proof (clock_delta_used_as_is first_frame initial _
                (animate_no_avatar first_frame initial eq_refl)) as [Hb _].
  eexists. split; [apply animate_no_avatar; reflexivity|].
  rewrite Hb.
  assert (blink_fires (now_blink first_frame) initial = true) as ->.
  { apply blink_fires_true. simpl. lra. }
  rewrite bool_decide_true by lra. simpl. lra.
Defined.

Lemma absent_channel_write_is_noop_witness :
  applyMorph "mouthFrown" 1 (head_state idle) = head_state idle /\
  lerpMorph "mouthFrown" 1 0.15 (head_state idle) = head_state idle.
Proof.
  destruct (absent_channel_write_is_noop "mouthFrown" (head_state idle) 1 1 0.15
              (head_state_mouthFrown_absent idle)) as (H1 & H2 & _).
  by split.
Defined.

(** * Further properties of the component *)

(** ** Mode and levels *)

Lemma loadAvatar_onLoad_mode scene now rnd s :
  _mode (loadAvatar_onLoad scene now rnd s) = _mode s.
Proof.
  unfold loadAvatar_onLoad, scheduleNextBlink. cbv zeta.
  set (s1 := set_teethMesh _ _). set (g := traverse _ _).
  by destruct (log_morphs_fields g s1) as [l ->].
Qed.

(** X1: frames, the arrival of the model and the node setters never change
    the mode; only the public controls and the [mode] setter do. *)
Theorem mode_changes_only_by_controls (es : list Event) (s : State) :
  forallb not_a_control es = true -> _mode (run es s) = _mode s.
Proof.
  revert s. induction es as [|e es IH]; intros s Hes; [done|].
  cbn [forallb] in Hes. apply andb_true_iff in Hes as [He Hes].
  rewrite run_cons, IH by done.
  destruct e; try done; cbn [step].
  - apply animate_mode_field.
  - apply loadAvatar_onLoad_mode.
Qed.

Lemma mode_changes_only_by_controls_witness :
  _mode (run (EvStartSpeaking :: EvInputNode :: slow_frames) initial) = speak.
Proof.
  rewrite run_cons. cbn [step].
  by rewrite (mode_changes_only_by_controls (EvInputNode :: slow_frames)
                (startSpeaking initial) eq_refl).
Defined.

Lemma animate_levels_analyser_some io s an :
  outputAnalyser s = Some an ->
  outputAnalyser (animate_levels io s) = Some (mkAnalyser (out_fft io)).
Proof.
  intros H. unfold animate_levels. rewrite H. simpl.
  by destruct (pullLevel (in_fft io) _ _ _).
Qed.

Lemma animate_outputAnalyser io s :
  outputAnalyser (state_of (animate io s)) = outputAnalyser (animate_levels io s).
Proof.
  assert (forall x, outputAnalyser (animate_mode_controls (clock_delta io) x)
                    = outputAnalyser x) as Hm.
  { intros x. unfold animate_mode_controls. by destruct (_mode x). }
  assert (forall x, outputAnalyser (doBlink_controls io (clock_delta io) x)
                    = outputAnalyser x) as Hb.
  { intros x. unfold doBlink_controls. cbv zeta.
    destruct (blink_fires (now_blink io) x); cbn; by destruct (bool_decide _). }
  destruct (controls_animate io s) as [H|H]; controls_of H;
    rewrite HoutputAnalyser, ?Hb, Hm; reflexivity.
Qed.

(** X2: while the output analyser keeps delivering the same non-empty buffer,
    the distance of the smoothed output level to the buffer's normalised mean
    shrinks by the factor 0.65 on every frame. *)
Theorem outLevel_converges_to_mean
    (ios : list Frame) (s : State) (an : Analyser) (b : byte) (d : list byte) :
  outputAnalyser s = Some an ->
  Forall (out_snapshot_is (b :: d)) ios ->
  outLevel (run (frames ios) s) - mean_magnitude (b :: d) / 255
  = 0.65 ^ length ios * (outLevel s - mean_magnitude (b :: d) / 255).
Proof.
  revert s an. induction ios as [|io ios IH]; intros s an Han Hios.
  - simpl. lra.
  - apply Forall_cons in Hios as [Hio Hios].
    rewrite run_frames_cons.
    rewrite (IH _ (mkAnalyser (out_fft io))); [|
      by rewrite animate_outputAnalyser, (animate_levels_analyser_some io s an) |
      done].
    rewrite animate_outLevel, Han, Hio, pullLevel_data. simpl. lra.
Qed.

Lemma outLevel_converges_to_mean_witness :
  outLevel (run (frames [loud_frame; loud_frame]) (outputNode_setter initial))
  - mean_magnitude [xff; x00] / 255
  = 0.65 ^ length [loud_frame; loud_frame]
    * (outLevel (outputNode_setter initial) - mean_magnitude [xff; x00] / 255).
Proof.
  apply (outLevel_converges_to_mean [loud_frame; loud_frame]
           (outputNode_setter initial) (mkAnalyser None) xff [x00]);
    [reflexivity|].
  by repeat constructor.
Defined.

(** ** Morph writes *)

Lemma array_set_twice a k v w : array_set (array_set a k w) k v = array_set a k v.
Proof.
  unfold array_set at 2 3. case_decide as Hk.
  - unfold array_set. rewrite length_insert. rewrite decide_True by done.
    apply list_insert_insert_eq.
  - unfold array_set.
    rewrite !length_app, length_replicate. cbn [length].
    rewrite decide_True by lia.
    rewrite insert_app_r_alt by lia.
    rewrite insert_app_r_alt by (rewrite length_replicate; lia).
    rewrite length_replicate.
    by replace (k - length a - (k - length a))%nat with 0%nat by lia.
Qed.

Lemma applyMorph_child_twice n v w c :
  applyMorph_child n v (applyMorph_child n w c) = applyMorph_child n v c.
Proof.
  unfold applyMorph_child.
  destruct c as [nm [] cs rs [dict|] [a|] p r k]; cbn; try done.
  destruct (dict !! n) as [idx|] eqn:E; cbn; rewrite ?E; [|done].
  unfold set_influences. cbn. by rewrite array_set_twice.
Qed.

Lemma applyMorph_child_after_lerp n v w r c :
  applyMorph_child n v (lerpMorph_child n w r c) = applyMorph_child n v c.
Proof.
  unfold applyMorph_child, lerpMorph_child.
  destruct c as [nm [] cs rs [dict|] [a|] p r' k]; cbn; try done.
  destruct (dict !! n) as [idx|] eqn:E; cbn; rewrite ?E; [|done].
  unfold set_influences. cbn. by rewrite array_set_twice.
Qed.

Lemma traverse_traverse f g (l : Group) :
  traverse g (traverse f l) = traverse (g ∘ f) l.
Proof. unfold traverse. by rewrite <- list_fmap_compose. Qed.

Lemma traverse_ext f g (l : Group) :
  (forall c, f c = g c) -> traverse f l = traverse g l.
Proof. intros H. unfold traverse. by apply list_fmap_ext. Qed.

(** X3: a direct write to a channel makes what was written to it before
    irrelevant: after [applyMorph(n, v)] the component is in the same state
    whether or not a direct or a lerp write to [n] came just before. *)
Theorem direct_write_overrides (n : string) (v w r : R) (s : State) :
  applyMorph n v (applyMorph n w s) = applyMorph n v s /\
  applyMorph n v (lerpMorph n w r s) = applyMorph n v s.
Proof.
  unfold applyMorph, lerpMorph.
  destruct (avatar s) as [g|] eqn:E; [|by rewrite E].
  change (avatar (set_avatar ?a s)) with a. cbv iota beta.
  change (set_avatar ?a (set_avatar ?b s)) with (set_avatar a s).
  rewrite !traverse_traverse.
  rewrite (traverse_ext (applyMorph_child n v ∘ applyMorph_child n w)
             (applyMorph_child n v) g
             (fun c => applyMorph_child_twice n v w c)).
  by rewrite (traverse_ext (applyMorph_child n v ∘ lerpMorph_child n w r)
                (applyMorph_child n v) g
                (fun c => applyMorph_child_after_lerp n v w r c)).
Qed.

Lemma unit_array_set a k v :
  unit_influences a -> 0 <= v <= 1 -> unit_influences (array_set a k v).
Proof.
  intros Ha Hv. unfold array_set, unit_influences in *. case_decide.
  - apply Forall_insert; [done|]. intros y [= <-]. done.
  - apply Forall_app. split; [done|]. apply Forall_app. split.
    + by apply Forall_replicate.
    + apply Forall_singleton. intros y [= <-]. done.
Qed.

Lemma unit_array_get_or0 a k :
  unit_influences a -> 0 <= array_get_or0 a k <= 1.
Proof.
  intros Ha. unfold array_get_or0, array_get.
  destruct (a !! k) as [[x|]|] eqn:E; simpl; try lra.
  unfold unit_influences in Ha. rewrite Forall_lookup in Ha.
  by apply (Ha k (Some x)).
Qed.

Lemma lerp_unit x y t :
  0 <= t <= 1 -> 0 <= x <= 1 -> 0 <= y <= 1 -> 0 <= MathUtils.lerp x y t <= 1.
Proof. unfold MathUtils.lerp. intros. nra. Qed.

Lemma influences_ok_morphs c1 c2 :
  morphs c1 = morphs c2 -> influences_ok c1 -> influences_ok c2.
Proof.
  intros (_ & _ & H)%morphs_eq Hok a Ha. apply Hok. by rewrite H.
Qed.

Lemma influences_ok_applyMorph_child n v c :
  influences_ok c -> influences_ok (applyMorph_child n v c).
Proof.
  intros Hok. unfold applyMorph_child.
  destruct (isMesh c); [|done].
  destruct (morphTargetDictionary c) as [dict|]; [|done].
  destruct (morphTargetInfluences c) as [a|] eqn:Ea; [|done].
  destruct (dict !! n); [|done].
  intros a' [= <-]. apply unit_array_set; [by apply Hok|].
  apply clamp_bounds. lra.
Qed.

Lemma influences_ok_lerpMorph_child n v r c :
  0 <= r <= 1 -> influences_ok c -> influences_ok (lerpMorph_child n v r c).
Proof.
  intros Hr Hok. unfold lerpMorph_child.
  destruct (isMesh c); [|done].
  destruct (morphTargetDictionary c) as [dict|]; [|done].
  destruct (morphTargetInfluences c) as [a|] eqn:Ea; [|done].
  destruct (dict !! n); [|done].
  intros a' [= <-]. apply unit_array_set; [by apply Hok|].
  apply lerp_unit; [done| |apply clamp_bounds; lra].
  apply unit_array_get_or0. by apply Hok.
Qed.

Lemma ok_step_refl s s' : (forall i, node i s' = node i s) -> ok_step s s'.
Proof.
  intros H i. exists Datatypes.id. rewrite option_fmap_id. by split.
Qed.

Lemma ok_step_trans s1 s2 s3 : ok_step s1 s2 -> ok_step s2 s3 -> ok_step s1 s3.
Proof.
  intros H12 H23 i. destruct (H12 i) as (F & HF & HkF).
  destruct (H23 i) as (G & HG & HkG). exists (G ∘ F).
  rewrite HG, HF, option_fmap_compose. split; [done|].
  intros c Hc. simpl. by apply HkG, HkF.
Qed.

Lemma ok_step_keeps_morphs s s' :
  (forall i, exists F, node i s' = F <$> node i s /\ keeps_morphs F) ->
  ok_step s s'.
Proof.
  intros H i. destruct (H i) as (F & HF & HkF). exists F. split; [done|].
  intros c. apply influences_ok_morphs. by rewrite HkF.
Qed.

Lemma ok_step_applyMorph n v s : ok_step s (applyMorph n v s).
Proof.
  intros i. eexists. split; [apply node_applyMorph|].
  intros c. apply influences_ok_applyMorph_child.
Qed.

Lemma ok_step_lerpMorph n v r s :
  0 <= r <= 1 -> ok_step s (lerpMorph n v r s).
Proof.
  intros Hr i. eexists. split; [apply node_lerpMorph|].
  intros c. by apply influences_ok_lerpMorph_child.
Qed.

Lemma ok_step_with_avatar_root cb s :
  keeps_morphs cb -> ok_step s (with_avatar_root cb s).
Proof.
  intros Hcb. apply ok_step_keeps_morphs. intros i.
  by apply node_with_avatar_root.
Qed.

Ltac ok_peel :=
  repeat first
    [ apply ok_step_refl; reflexivity
    | eapply ok_step_trans;
      [| first [ apply ok_step_lerpMorph; unfold lerpMorph_rate; lra
               | apply ok_step_applyMorph
               | apply ok_step_with_avatar_root; by intros ? ] ] ].

Lemma ok_step_animate_mode io dt s : ok_step s (animate_mode io dt s).
Proof. unfold animate_mode. destruct (_mode s); cbv zeta; ok_peel. Qed.

Lemma ok_step_doBlink io dt s : ok_step s (doBlink io dt s).
Proof.
  unfold doBlink. cbv zeta. fold (doBlink_fired io s).
  assert (ok_step s (doBlink_fired io s)) as H1.
  { apply ok_step_refl. unfold doBlink_fired. by destruct (blink_fires _ _). }
  destruct (bool_decide _); [|done].
  eapply ok_step_trans; [exact H1|]. ok_peel.
Qed.

Lemma ok_step_animate_pose io s : ok_step s (animate_pose io s).
Proof.
  unfold animate_pose. cbv zeta.
  eapply ok_step_trans; [|apply ok_step_animate_mode].
  eapply ok_step_trans; [|apply ok_step_refl; reflexivity].
  eapply ok_step_trans;
    [|apply ok_step_keeps_morphs; intros i; apply node_animate_ears].
  eapply ok_step_trans; [|apply ok_step_lerpMorph; lra].
  eapply ok_step_trans;
    [|apply ok_step_keeps_morphs; intros i; apply node_animate_head].
  apply ok_step_refl. intros i. apply node_animate_levels.
Qed.

Lemma scene_ok_step s s' : ok_step s s' -> scene_ok s -> scene_ok s'.
Proof.
  intros Hstep Hok i c' Hc'. destruct (Hstep i) as (F & HF & HkF).
  rewrite HF in Hc'. destruct (node i s) as [c|] eqn:E; [|done].
  simpl in Hc'. simplify_eq. apply HkF. by apply (Hok i).
Qed.

Lemma scene_ok_animate_teeth s s' :
  animate_teeth s = Some s' -> scene_ok s -> scene_ok s'.
Proof.
  unfold animate_teeth. intros H Hok.
  repeat case_match; simplify_eq; try done.
  intros i c Hc. unfold node in Hc. simpl in Hc.
  rewrite lookup_update_node in Hc.
  match goal with Hg : avatar s = Some ?g |- _ =>
    assert (forall j, node j s = g !! j) as Hnode
        by (intros j; unfold node; by rewrite Hg) end.
  case_decide as Hi; [subst|].
  - match goal with Ht : _ !! i = Some ?tc |- _ =>
      rewrite Ht in Hc; simpl in Hc; simplify_eq end.
    intros a' [= <-]. apply unit_array_set.
    + eapply (Hok i); [by rewrite Hnode|done].
    + apply unit_array_get_or0.
      match goal with Hh : _ !! ?h = Some ?hc, Hi : morphTargetInfluences ?hc = Some ?a
        |- unit_influences ?a => eapply (Hok h hc); [by rewrite Hnode|done] end.
  - rewrite option_fmap_id in Hc. apply (Hok i). by rewrite Hnode.
Qed.

Lemma scene_ok_animate io s : scene_ok s -> scene_ok (state_of (animate io s)).
Proof.
  intros Hok. rewrite animate_unfold.
  pose proof (scene_ok_step _ _ (ok_step_animate_pose io s) Hok) as Hp.
  destruct (animate_teeth (animate_pose io s)) as [s'|] eqn:Et; simpl; [|done].
  eapply scene_ok_step; [apply ok_step_doBlink|].
  by eapply scene_ok_animate_teeth.
Qed.

Lemma scene_ok_loadAvatar_onLoad scene now rnd s :
  Forall influences_ok scene -> scene_ok (loadAvatar_onLoad scene now rnd s).
Proof.
  intros Hscene i c. unfold node, loadAvatar_onLoad, scheduleNextBlink.
  cbv zeta. set (s1 := set_teethMesh _ _). set (g := traverse _ _).
  destruct (log_morphs_fields g s1) as [l ->]. cbn.
  unfold g, traverse, update_root. rewrite list_lookup_fmap, lookup_update_node.
  destruct (scene !! i) as [c0|] eqn:E; [|by case_decide].
  rewrite Forall_lookup in Hscene. specialize (Hscene i c0 E).
  intros Hc. apply (influences_ok_morphs c0); [|done].
  case_decide; simpl in Hc; simplify_eq; by destruct (isMesh _).
Qed.

(** X4: morph influences never leave [0, 1]: if every influence of the loaded
    avatar is in [0, 1], and so is every influence of a model that arrives,
    then the same holds after any sequence of events. *)
Theorem influences_stay_in_unit_interval (es : list Event) (s : State) :
  Forall load_ok es -> scene_ok s -> scene_ok (run es s).
Proof.
  revert s. induction es as [|e es IH]; intros s Hes Hok; [done|].
  apply Forall_cons in Hes as [He Hes]. rewrite run_cons. apply IH; [done|].
  destruct e; cbn [step]; try done.
  - by apply scene_ok_animate.
  - by apply scene_ok_loadAvatar_onLoad.
  - unfold stopDance. cbv zeta. by destruct (_mode _).
Qed.

Lemma head_mesh_influences_ok : influences_ok head_mesh.
Proof.
  intros a [= <-]. unfold unit_influences.
  repeat (apply Forall_cons_2; [intros x [= <-]; lra|]). apply Forall_nil_2.
Qed.

Lemma influences_stay_in_unit_interval_witness :
  scene_ok (run load_then_frames initial).
Proof.
  apply influences_stay_in_unit_interval.
  - repeat constructor; [done|apply head_mesh_influences_ok].
  - intros i c Hc. discriminate Hc.
Defined.

(** ** A mesh over whole frames *)






(** X6: on a frame on which a blink starts or is in progress, [doBlink]
    leaves every eyelid channel that a morph mesh has at the envelope of the
    new progress, clamped to [0, 1]. *)
Theorem blink_writes_envelope
    (io : Frame) (dt : R) (s : State) (i : nat) (c : Object3D)
    (dict : gmap string nat) (n : string) :
  node i s = Some c -> morph_mesh c dict -> dict_injective dict ->
  eyelid_channel n -> is_Some (dict !! n) ->
  0 < blinkT s \/ blink_fires (now_blink io) s = true ->
  exists c',
    node i (doBlink io dt s) = Some c' /\
    morph_value n c'
    = Some (MathUtils.clamp (blink_phase (blinkT (doBlink io dt s))) 0 1).
Proof.
  intros Hn Hc Hinj Hch [k Hk] Hact.
  assert (tracked i s c) as Ht by by exists c.
  apply (tracked_doBlink i io dt) in Ht as (c' & Hc' & Hm).
  exists c'. split; [done|]. rewrite (morph_value_morphs _ _ _ Hm).
  assert (0 < blinkT (doBlink_fired io s) /\
          blinkT (doBlink io dt s) = blinkT (doBlink_fired io s) - dt * 6)
    as [Hpos Hb].
  { rewrite (proj1 (blinkT_doBlink _ _ _)). unfold doBlink_fired.
    destruct Hact as [Ha|Hf].
    - rewrite doBlink_controls_active, blink_fires_active by done.
      by split.
    - rewrite doBlink_controls_fires, Hf by done. simpl. split; lra. }
  unfold doBlink_child. cbv zeta. rewrite bool_decide_true by done.
  rewrite <- Hb. set (phase := blink_phase _).
  pose proof (morph_mesh_applyMorph_child "eyeBlinkLeft" phase c dict Hc) as Hc1.
  pose proof (morph_mesh_applyMorph_child "eyeBlinkRight" phase _ dict Hc1) as Hc2.
  destruct Hch as [-> | [-> | ->]].
  - rewrite (applyMorph_child_other_inj _ _ _ _ dict) by done.
    rewrite (applyMorph_child_other_inj _ _ _ _ dict) by done.
    by eapply applyMorph_child_value.
  - rewrite (applyMorph_child_other_inj _ _ _ _ dict) by done.
    by eapply applyMorph_child_value.
  - by eapply applyMorph_child_value.
Qed.

Lemma two_entry_dict_injective (n1 n2 : string) (k1 k2 : nat) :
  k1 <> k2 -> dict_injective {[ n1 := k1; n2 := k2 ]}.
Proof.
  intros Hk m1 m2 k H1 H2.
  apply lookup_insert_Some in H1 as [[<- <-]|[Hn1 H1]];
    apply lookup_insert_Some in H2 as [[<- H2]|[Hn2 H2]]; try done.
  - apply lookup_singleton_Some in H2 as [_ ?]. done.
  - apply lookup_singleton_Some in H1 as [_ ?]. congruence.
  - apply lookup_singleton_Some in H1 as [<- _].
    by apply lookup_singleton_Some in H2 as [<- _].
Qed.


Lemma blink_writes_envelope_witness :
  exists c',
    node 1 (doBlink first_frame 0.016 eyelid_state) = Some c' /\
    morph_value "eyeBlinkLeft" c'
    = Some (MathUtils.clamp
              (blink_phase (blinkT (doBlink first_frame 0.016 eyelid_state))) 0 1).
Proof.
  apply (blink_writes_envelope first_frame 0.016 eyelid_state 1 eyelid_mesh
           eyelid_dict "eyeBlinkLeft" eq_refl).
  - repeat split. by eexists.
  - apply two_entry_dict_injective. lia.
  - by left.
  - by eexists.
  - right. apply blink_fires_true. simpl. lra.
Defined.

(** ** Pose *)

Lemma node_root_with_avatar_root cb s c :
  node 0 s = Some c -> node 0 (with_avatar_root cb s) = Some (cb c).
Proof.
  unfold node, with_avatar_root. destruct (avatar s) as [g|] eqn:E; [|done].
  simpl. intros Hc. unfold update_root. rewrite lookup_update_node.
  rewrite decide_True by done. by rewrite Hc.
Qed.

Lemma pose_after_pose_phase i io s c1 :
  node i (animate_pose io s) = Some c1 ->
  exists c', node i (state_of (animate io s)) = Some c' /\ pose c' = pose c1.
Proof.
  intros Hc1. rewrite animate_unfold.
  destruct (animate_teeth (animate_pose io s)) as [s'|] eqn:Et; simpl.
  - destruct (node_animate_teeth_pose i _ _ Et) as (F & HF & HkF).
    destruct (node_doBlink_pose i io (clock_delta io) s') as (G & HG & HkG).
    exists (G (F c1)). rewrite HG, HF, Hc1. split; [done|].
    by rewrite HkG, HkF.
  - by exists c1.
Qed.

Lemma idle_root_pose io s c :
  _mode s = idle -> node 0 s = Some c ->
  exists c',
    node 0 (state_of (animate io s)) = Some c' /\
    vy (position c') = sin (now_mode io * 0.001 * 1.2) * 0.015 /\
    vy (rotation c') = sin (now_mode io * 0.001 * 0.6) * 0.05 /\
    vx (rotation c') = sin (now_mode io * 0.001 * 0.4) * 0.03.
Proof.
  intros Hm Hc.
  destruct (node_before_mode_case 0 io s c Hc) as [c0 Hc0].
  assert (exists c1, node 0 (animate_pose io s) = Some c1 /\
            vy (position c1) = sin (now_mode io * 0.001 * 1.2) * 0.015 /\
            vy (rotation c1) = sin (now_mode io * 0.001 * 0.6) * 0.05 /\
            vx (rotation c1) = sin (now_mode io * 0.001 * 0.4) * 0.03)
    as (c1 & Hc1 & Hp).
  { unfold animate_pose. cbv zeta. rewrite (mode_before_mode_case io s).
    set (s4 := console_log _ _) in *.
    unfold animate_mode.
    change (_mode s4) with (_mode (animate_ears io
           (lerpMorph "mouthSmile" 0 0.12 (animate_head io (animate_levels io s))))).
    rewrite (mode_before_mode_case io s), Hm. cbv zeta.
    erewrite node_root_with_avatar_root;
      [|by rewrite node_lerpMorph, Hc0].
    eexists. split; [done|]. cbn. by repeat split. }
  destruct (pose_after_pose_phase 0 io s c1 Hc1) as (c' & Hc' & Hpose).
  exists c'. split; [done|].
  by destruct (pose_fields _ _ Hpose) as (-> & -> & _).
Qed.

(** X7: the body pose stays within the amplitudes of the mode: at the end of
    an idle frame the group's position-Y is within 0.015 of 0, its rotation-Y
    within 0.05 and its rotation-X within 0.03; at the end of a dance frame
    the position-Y is in [-0.03, 0.07], the rotation-Y within 0.25 and the
    rotation-Z within 0.07. *)
Theorem body_pose_bounded (io : Frame) (s : State) (c : Object3D) :
  node 0 s = Some c ->
  exists c',
    node 0 (state_of (animate io s)) = Some c' /\
    (_mode s = idle ->
     -0.015 <= vy (position c') <= 0.015 /\
     -0.05 <= vy (rotation c') <= 0.05 /\
     -0.03 <= vx (rotation c') <= 0.03) /\
    (_mode s = dance ->
     -0.03 <= vy (position c') <= 0.07 /\
     -0.25 <= vy (rotation c') <= 0.25 /\
     -0.07 <= vz (rotation c') <= 0.07).
Proof.
  intros Hc.
  destruct (_mode s) eqn:Hm.
  - destruct (idle_root_pose io s c Hm Hc) as (c' & Hc' & H1 & H2 & H3).
    exists c'. split; [done|]. split; [|done]. intros _.
    rewrite H1, H2, H3.
    pose proof (SIN_bound (now_mode io * 0.001 * 1.2)).
    pose proof (SIN_bound (now_mode io * 0.001 * 0.6)).
    pose proof (SIN_bound (now_mode io * 0.001 * 0.4)). lra.
  - destruct (rig_step_animate 0 io s) as (F & HF & _).
    rewrite Hc in HF. by eexists.
  - destruct (rig_step_animate 0 io s) as (F & HF & _).
    rewrite Hc in HF. by eexists.
  - destruct (dance_root_pose io s c Hm Hc) as (c' & Hc' & H1 & H2 & H3).
    exists c'. split; [done|]. split; [done|]. intros _.
    rewrite H1, H2, H3.
    pose proof (SIN_bound (now_mode io * 0.001 * 4)).
    pose proof (SIN_bound (now_mode io * 0.001 * 2)).
    pose proof (SIN_bound (now_mode io * 0.001 * 3.2)). lra.
Qed.

Lemma body_pose_bounded_witness :
  exists c',
    node 0 (state_of (animate dance_frame_b dance_state)) = Some c' /\
    -0.03 <= vy (position c') <= 0.07.
Proof.
  destruct (body_pose_bounded dance_frame_b dance_state bare_group eq_refl)
    as (c' & Hc' & _ & Hd).
  exists c'. split; [done|]. by destruct (Hd eq_refl) as [? _].
Defined.

(** ** The exception of the teeth follower *)

Lemma shape_step_refl i s s' : node i s' = node i s -> shape_step i s s'.
Proof. intros H. exists Datatypes.id. by rewrite option_fmap_id. Qed.

Lemma shape_step_trans i s1 s2 s3 :
  shape_step i s1 s2 -> shape_step i s2 s3 -> shape_step i s1 s3.
Proof.
  intros (F & HF & HkF) (G & HG & HkG). exists (G ∘ F).
  rewrite HG, HF, option_fmap_compose. split; [done|].
  intros c. simpl. by rewrite HkG, HkF.
Qed.

Lemma shape_applyMorph_child n v c : shape (applyMorph_child n v c) = shape c.
Proof.
  unfold applyMorph_child, shape, has_influences.
  repeat case_match; simplify_eq; cbn in *; congruence.
Qed.

Lemma shape_lerpMorph_child n v r c : shape (lerpMorph_child n v r c) = shape c.
Proof.
  unfold lerpMorph_child, shape, has_influences.
  repeat case_match; simplify_eq; cbn in *; congruence.
Qed.

Lemma shape_morphs c1 c2 : morphs c1 = morphs c2 -> shape c1 = shape c2.
Proof.
  intros (_ & H2 & H3)%morphs_eq. unfold shape, has_influences.
  by rewrite H2, H3.
Qed.

Lemma shape_step_applyMorph i n v s : shape_step i s (applyMorph n v s).
Proof.
  eexists. split; [apply node_applyMorph|]. intros c. apply shape_applyMorph_child.
Qed.

Lemma shape_step_lerpMorph i n v r s : shape_step i s (lerpMorph n v r s).
Proof.
  eexists. split; [apply node_lerpMorph|]. intros c. apply shape_lerpMorph_child.
Qed.

Lemma shape_step_keeps_morphs i s s' :
  (exists F, node i s' = F <$> node i s /\ keeps_morphs F) -> shape_step i s s'.
Proof.
  intros (F & HF & HkF). exists F. split; [done|].
  intros c. apply shape_morphs, HkF.
Qed.

Lemma shape_step_with_avatar_root i cb s :
  keeps_morphs cb -> shape_step i s (with_avatar_root cb s).
Proof. intros Hcb. by apply shape_step_keeps_morphs, node_with_avatar_root. Qed.

Ltac shape_peel :=
  repeat first
    [ apply shape_step_refl; reflexivity
    | eapply shape_step_trans;
      [| first [ apply shape_step_lerpMorph
               | apply shape_step_applyMorph
               | apply shape_step_with_avatar_root; by intros ? ] ] ].

Lemma shape_step_animate_mode i io dt s : shape_step i s (animate_mode io dt s).
Proof. unfold animate_mode. destruct (_mode s); cbv zeta; shape_peel. Qed.

Lemma shape_step_animate_pose i io s : shape_step i s (animate_pose io s).
Proof.
  unfold animate_pose. cbv zeta.
  eapply shape_step_trans; [|apply shape_step_animate_mode].
  eapply shape_step_trans; [|apply shape_step_refl; reflexivity].
  eapply shape_step_trans;
    [|apply shape_step_keeps_morphs, node_animate_ears].
  eapply shape_step_trans; [|apply shape_step_lerpMorph].
  eapply shape_step_trans;
    [|apply shape_step_keeps_morphs, node_animate_head].
  apply shape_step_refl, node_animate_levels.
Qed.

Lemma headMesh_animate_pose io s : headMesh (animate_pose io s) = headMesh s.
Proof.
  pose proof (controls_animate_pose io s) as Hc. controls_of Hc.
  rewrite HheadMesh. unfold animate_mode_controls.
  destruct (animate_levels_rest io s) as (_&_&_&_&_&_&Hh&_).
  destruct (_mode (console_log _ _)); exact Hh.
Qed.

Lemma animate_teeth_none s : animate_teeth s = None <-> teeth_throw s.
Proof.
  unfold animate_teeth, teeth_throw, node, has_influences. split.
  - destruct (teethMesh s) as [t|]; [|done].
    destruct (headMesh s) as [h|]; [|done].
    destruct (avatar s) as [g|]; [|done].
    destruct (g !! h) as [hc|] eqn:Ehc; [|by destruct (g !! t)].
    destruct (g !! t) as [tc|] eqn:Etc; [|done].
    destruct (morphTargetDictionary hc) as [dict|] eqn:Ed; [|done]. simpl.
    destruct (dict !! "mouthOpen") as [idx|] eqn:Ei; [|done].
    destruct (morphTargetInfluences hc) as [ha|] eqn:Eh.
    + destruct (morphTargetInfluences tc) as [ta|] eqn:Eta; [done|].
      intros _. exists t, h, tc, hc, dict, idx. rewrite Eta.
      repeat split; try done. by right.
    + intros _. exists t, h, tc, hc, dict, idx. rewrite Eh.
      repeat split; try done. by left.
  - intros (t & h & tc & hc & dict & idx & Ht & Hh & Hhc & Htc & Hd & Hi & Hor).
    rewrite Ht, Hh. destruct (avatar s) as [g|]; [|done]. simpl in Hhc, Htc.
    rewrite Hhc, Htc, Hd. simpl. rewrite Hi.
    destruct (morphTargetInfluences hc); [|done].
    destruct (morphTargetInfluences tc); [|done].
    by destruct Hor.
Qed.

Lemma teeth_throw_animate_pose io s :
  teeth_throw (animate_pose io s) <-> teeth_throw s.
Proof.
  unfold teeth_throw.
  rewrite teethMesh_animate_pose, headMesh_animate_pose. split.
  - intros (t & h & tc' & hc' & dict & idx & Ht & Hh & Hhc & Htc & Hd & Hi & Hor).
    destruct (shape_step_animate_pose h io s) as (F & HF & HkF).
    destruct (shape_step_animate_pose t io s) as (G & HG & HkG).
    rewrite HF in Hhc. rewrite HG in Htc.
    destruct (node h s) as [hc|] eqn:Ehc; [|done].
    destruct (node t s) as [tc|] eqn:Etc; [|done].
    simpl in Hhc, Htc. simplify_eq.
    pose proof (HkF hc) as Hsh. pose proof (HkG tc) as Hst.
    unfold shape in Hsh, Hst. simplify_eq.
    exists t, h, tc, hc, dict, idx. repeat split; try done; congruence.
  - intros (t & h & tc & hc & dict & idx & Ht & Hh & Hhc & Htc & Hd & Hi & Hor).
    destruct (shape_step_animate_pose h io s) as (F & HF & HkF).
    destruct (shape_step_animate_pose t io s) as (G & HG & HkG).
    pose proof (HkF hc) as Hsh. pose proof (HkG tc) as Hst.
    unfold shape in Hsh, Hst. simplify_eq.
    exists t, h, (G tc), (F hc), dict, idx.
    rewrite HF, HG, Hhc, Htc. repeat split; try done; congruence.
Qed.

(** X8: a frame ends in the [TypeError] of the teeth follower exactly when
    head and teeth meshes were found, the head has a [mouthOpen] channel and
    the head or the teeth have no influences array; the condition does not
    depend on the frame, so from then on every frame throws before
    [doBlink] and the blink state never changes again. *)
Theorem frame_throws_iff_teeth_cannot_follow :
  (forall io s, (exists s', animate io s = TypeError s') <-> teeth_throw s) /\
  (forall ios s,
     teeth_throw s ->
     teeth_throw (run (frames ios) s) /\
     blinkT (run (frames ios) s) = blinkT s /\
     nextBlinkAt (run (frames ios) s) = nextBlinkAt s).
Proof.
  assert (forall io s, (exists s', animate io s = TypeError s') <-> teeth_throw s)
    as Hiff.
  { intros io s. rewrite <- (teeth_throw_animate_pose io s), <- animate_teeth_none.
    rewrite animate_unfold.
    destruct (animate_teeth (animate_pose io s)); split; try done.
    - by intros [s' ?].
    - by eexists. }
  split; [exact Hiff|].
  intros ios. induction ios as [|io ios IH]; intros s Hs; [done|].
  rewrite run_frames_cons.
  pose proof (proj2 (teeth_throw_animate_pose io s) Hs) as Hp.
  pose proof (proj2 (animate_teeth_none _) Hp) as Hnone.
  assert (state_of (animate io s) = animate_pose io s) as ->.
  { rewrite animate_unfold. by rewrite Hnone. }
  destruct (IH _ Hp) as (H1 & -> & ->). split; [done|].
  pose proof (controls_animate_pose io s) as Hc.
  rewrite (blinkT_controls _ _ Hc), (nextBlinkAt_controls _ _ Hc).
  apply blinkT_before_doBlink.
Qed.

Lemma bare_teeth_state_throws : teeth_throw bare_teeth_state.
Proof.
  exists 2%nat, 1%nat, bare_teeth, head_mesh, mouth_dict, 0%nat.
  repeat split; try done. by right.
Qed.

Lemma frame_throws_iff_teeth_cannot_follow_witness :
  (exists s', animate first_frame bare_teeth_state = TypeError s') /\
  blinkT (run (frames tenth_frames) bare_teeth_state) = blinkT bare_teeth_state.
Proof.
  split.
  - apply (proj1 frame_throws_iff_teeth_cannot_follow), bare_teeth_state_throws.
  - apply (proj2 frame_throws_iff_teeth_cannot_follow tenth_frames
             bare_teeth_state bare_teeth_state_throws).
Defined.

(** ** Loading the avatar *)







(** * The session component *)

Lemma live_run_cons e es l : Live.run (e :: es) l = Live.run es (Live.step e l).
Proof. reflexivity. Qed.

Lemma live_chunks_follow_snoc cs c :
  Live.chunks_follow cs ->
  (forall c0, last cs = Some c0 ->
              Live.when c0 + Live.duration c0 <= Live.when c) ->
  Live.chunks_follow (cs ++ [c]).
Proof.
  induction cs as [|c1 cs IH]; intros Hcs Hlast; [by split|].
  destruct Hcs as [H1 Hcs]. cbn [app Live.chunks_follow].
  destruct cs as [|c2 cs].
  - cbn. split; [|done]. by apply Hlast.
  - split; [exact H1|]. apply IH; [done|].
    intros c0 Hc0. apply Hlast. exact Hc0.
Qed.

Lemma live_avatar_call_fields m l :
  Live.started (Live.state_of (Live.avatar_call m l)) = Live.started l /\
  Live.nextStartTime (Live.state_of (Live.avatar_call m l)) = Live.nextStartTime l /\
  Live.error (Live.state_of (Live.avatar_call m l)) = Live.error l /\
  Live.status (Live.state_of (Live.avatar_call m l)) = Live.status l /\
  Live.sources (Live.state_of (Live.avatar_call m l)) = Live.sources l /\
  Live.inputAudioContext (Live.state_of (Live.avatar_call m l))
  = Live.inputAudioContext l.
Proof. unfold Live.avatar_call. by destruct (Live.avatar l). Qed.

Lemma live_avatar_call_opt_fields m l :
  Live.started (Live.avatar_call_opt m l) = Live.started l /\
  Live.nextStartTime (Live.avatar_call_opt m l) = Live.nextStartTime l /\
  Live.error (Live.avatar_call_opt m l) = Live.error l /\
  Live.status (Live.avatar_call_opt m l) = Live.status l /\
  Live.isRecording (Live.avatar_call_opt m l) = Live.isRecording l /\
  Live.mediaStream (Live.avatar_call_opt m l) = Live.mediaStream l /\
  Live.sourceNode (Live.avatar_call_opt m l) = Live.sourceNode l /\
  Live.scriptProcessorNode (Live.avatar_call_opt m l) = Live.scriptProcessorNode l /\
  Live.inputAudioContext (Live.avatar_call_opt m l) = Live.inputAudioContext l.
Proof. unfold Live.avatar_call_opt. by destruct (Live.avatar l). Qed.

Lemma live_stopRecording_queue l :
  Live.started (Live.stopRecording l) = Live.started l /\
  Live.nextStartTime (Live.stopRecording l) = Live.nextStartTime l /\
  Live.error (Live.stopRecording l) = Live.error l /\
  Live.inputAudioContext (Live.stopRecording l) = Live.inputAudioContext l.
Proof.
  unfold Live.stopRecording. destruct (_ && _); [done|]. cbv zeta.
  destruct (live_avatar_call_opt_fields goIdle
              (Live.updateStatus "Recording stopped. Click Start to begin again."
                 (if Live.mediaStream
                       (Live.set_nodes false false
                          (Live.set_isRecording false
                             (Live.updateStatus "Stopping recording..." l)))
                  then Live.set_mediaStream false
                         (Live.set_nodes false false
                            (Live.set_isRecording false
                               (Live.updateStatus "Stopping recording..." l)))
                  else Live.set_nodes false false
                         (Live.set_isRecording false
                            (Live.updateStatus "Stopping recording..." l)))))
    as (-> & -> & -> & _ & _ & _ & _ & _ & ->).
  cbn. by destruct (Live.mediaStream l).
Qed.

Lemma live_step_quiet_queue e l :
  Live.quiet e ->
  (Live.started (Live.step e l) = Live.started l /\
   Live.nextStartTime l <= Live.nextStartTime (Live.step e l)) \/
  (exists src d, 0 <= d /\
     Live.started (Live.step e l)
     = Live.started l ++ [Live.mkChunk src (Live.nextStartTime l) d] /\
     Live.nextStartTime (Live.step e l) = Live.nextStartTime l + d).
Proof.
  intros Hq. destruct e; cbn [Live.step].
  - left. unfold Live.rendered. destruct (Live.avatar l); cbn; split; (done || lra).
  - left. cbn. split; (done || lra).
  - left. unfold Live.onmessage_audio, Live.avatar_call.
    destruct (Live.avatar l); cbn; split; try done; try lra. apply Rmax_l.
  - right. destruct Hq as [-> Hd]. exists src, d. split; [done|].
    unfold Live.onmessage_decoded, Live.onmessage_interrupted. by cbn.
  - left. cbn in Hq. subst. cbn. split; (done || lra).
  - left. unfold Live.source_ended. cbv zeta. destruct (bool_decide _); cbn.
    + destruct (live_avatar_call_fields goIdle
                  (Live.set_sources (Live.sources l ∖ {[src]}) l))
        as (-> & -> & _). cbn. split; (done || lra).
    + split; (done || lra).
  - left. unfold Live.onerror.
    destruct (live_avatar_call_fields goIdle (Live.updateError message l))
      as (-> & -> & _). cbn. split; (done || lra).
  - left. unfold Live.onclose.
    destruct (live_avatar_call_fields goIdle
                (Live.updateStatus ("Close:" ++ reason) l))
      as (-> & -> & _). cbn. split; (done || lra).
  - left. unfold Live.startRecording. destruct (Live.isRecording l); cbn;
      split; (done || lra).
  - left. cbn. split; (done || lra).
  - left. unfold Live.startRecording_denied. cbv zeta.
    destruct (live_stopRecording_queue
                (Live.updateStatus ("Error: " ++ message) l)) as (-> & -> & _).
    cbn. split; (done || lra).
  - left. destruct (live_stopRecording_queue l) as (-> & -> & _).
    split; (done || lra).
  - left. unfold Live.reset.
    destruct (live_avatar_call_opt_fields goIdle
                (Live.updateStatus "Session cleared." l)) as (-> & -> & _).
    cbn. split; (done || lra).
Qed.

(** X10: the model's audio is queued without overlap: as long as no message
    is an interruption and no decoded buffer has a negative duration, every
    chunk is started no earlier than the end of the chunk started before it,
    however the handlers of messages, [ended] events and buttons interleave. *)
Theorem live_chunks_never_overlap (es : list Live.Event) (l : Live.LiveAudio) :
  Forall Live.quiet es -> Live.queue_ok l -> Live.queue_ok (Live.run es l).
Proof.
  revert l. induction es as [|e es IH]; intros l Hes Hl; [done|].
  apply Forall_cons in Hes as [He Hes]. rewrite live_run_cons.
  apply IH; [done|]. destruct Hl as [Hcs Hlast].
  destruct (live_step_quiet_queue e l He) as [[Hs Hn]|(src & d & Hd & Hs & Hn)].
  - split; rewrite Hs; [done|]. intros c Hc. specialize (Hlast c Hc). lra.
  - split; rewrite Hs.
    + apply live_chunks_follow_snoc; [done|]. intros c0 Hc0. cbn.
      by apply Hlast.
    + intros c Hc. rewrite last_snoc in Hc. simplify_eq. cbn. lra.
Qed.

Lemma live_chunks_never_overlap_witness :
  Live.queue_ok (Live.run Live.three_chunks Live.initial).
Proof.
  apply live_chunks_never_overlap.
  - unfold Live.three_chunks. repeat constructor; simpl; lra.
  - split; [done|]. intros c Hc. discriminate Hc.
Defined.

Lemma live_step_error_and_context e l :
  Live.inputAudioContext (Live.step e l) = Live.inputAudioContext l /\
  (Live.not_an_error e -> Live.error (Live.step e l) = Live.error l).
Proof.
  destruct e; cbn [Live.step Live.not_an_error].
  - unfold Live.rendered. by destruct (Live.avatar l).
  - done.
  - unfold Live.onmessage_audio, Live.avatar_call. by destruct (Live.avatar l).
  - unfold Live.onmessage_decoded, Live.onmessage_interrupted. cbv zeta.
    destruct interrupted; [|done].
    match goal with |- context [Live.avatar_call goIdle ?x] =>
      destruct (live_avatar_call_fields goIdle x) as (_ & _ & -> & _ & _ & ->) end.
    done.
  - unfold Live.onmessage_interrupted. cbv zeta. destruct interrupted; [|done].
    match goal with |- context [Live.avatar_call goIdle ?x] =>
      destruct (live_avatar_call_fields goIdle x) as (_ & _ & -> & _ & _ & ->) end.
    done.
  - unfold Live.source_ended. cbv zeta. destruct (bool_decide _); [|done].
    match goal with |- context [Live.avatar_call goIdle ?x] =>
      destruct (live_avatar_call_fields goIdle x) as (_ & _ & -> & _ & _ & ->) end.
    done.
  - unfold Live.onerror.
    match goal with |- context [Live.avatar_call goIdle ?x] =>
      destruct (live_avatar_call_fields goIdle x) as (_ & _ & _ & _ & _ & ->) end.
    done.
  - unfold Live.onclose.
    match goal with |- context [Live.avatar_call goIdle ?x] =>
      destruct (live_avatar_call_fields goIdle x) as (_ & _ & -> & _ & _ & ->) end.
    done.
  - unfold Live.startRecording. by destruct (Live.isRecording l).
  - done.
  - unfold Live.startRecording_denied. cbv zeta.
    destruct (live_stopRecording_queue
                (Live.updateStatus ("Error: " ++ message) l)) as (_ & _ & -> & ->).
    done.
  - destruct (live_stopRecording_queue l) as (_ & _ & -> & ->). done.
  - unfold Live.reset.
    match goal with |- context [Live.avatar_call_opt goIdle ?x] =>
      destruct (live_avatar_call_opt_fields goIdle x)
        as (_ & _ & -> & _ & _ & _ & _ & _ & ->) end.
    done.
Qed.

Lemma live_context_always_there es :
  Live.inputAudioContext (Live.run es Live.initial) = true.
Proof.
  assert (forall l, Live.inputAudioContext l = true ->
                    Live.inputAudioContext (Live.run es l) = true) as H.
  { induction es as [|e es IH]; intros l Hl; [done|].
    rewrite live_run_cons. apply IH.
    by rewrite (proj1 (live_step_error_and_context e l)). }
  by apply H.
Qed.

Lemma live_avatar_call_opt_idle l :
  _mode <$> Live.avatar (Live.avatar_call_opt goIdle l)
  = (fun _ => idle) <$> Live.avatar l.
Proof.
  unfold Live.avatar_call_opt.
  destruct (Live.avatar l) eqn:E; [reflexivity|by rewrite E].
Qed.

Lemma live_stopRecording_stops l :
  Live.inputAudioContext l = true ->
  Live.isRecording (Live.stopRecording l) = false /\
  Live.mediaStream (Live.stopRecording l) = false /\
  Live.sourceNode (Live.stopRecording l) = false /\
  Live.scriptProcessorNode (Live.stopRecording l) = false /\
  Live.status (Live.stopRecording l)
  = "Recording stopped. Click Start to begin again."%string /\
  _mode <$> Live.avatar (Live.stopRecording l)
  = (fun _ => idle) <$> Live.avatar l.
Proof.
  intros Hctx. unfold Live.stopRecording. rewrite Hctx, !andb_false_r.
  cbv zeta.
  match goal with |- context [Live.avatar_call_opt goIdle ?x] =>
    destruct (live_avatar_call_opt_fields goIdle x)
      as (_ & _ & _ & -> & -> & -> & -> & -> & _);
    rewrite (live_avatar_call_opt_idle x) end.
  cbn. destruct (Live.mediaStream l) eqn:E; cbn; rewrite ?E; done.
Qed.

(** X11: [stopRecording] always stops: in every state the component can
    reach, its early return is never taken, so afterwards nothing is
    recording, the microphone stream and the two nodes are released, the
    status is the "stopped" message and the avatar, when there is one, is
    idle.  In particular, when the microphone is denied the status that
    holds the error message is overwritten by the "stopped" message. *)
Theorem live_stop_recording_always_stops (es : list Live.Event) :
  let l := Live.run es Live.initial in
  (Live.isRecording (Live.stopRecording l) = false /\
   Live.mediaStream (Live.stopRecording l) = false /\
   Live.sourceNode (Live.stopRecording l) = false /\
   Live.scriptProcessorNode (Live.stopRecording l) = false /\
   Live.status (Live.stopRecording l)
   = "Recording stopped. Click Start to begin again."%string /\
   _mode <$> Live.avatar (Live.stopRecording l)
   = (fun _ => idle) <$> Live.avatar l) /\
  (forall message,
     Live.status (Live.startRecording_denied message l)
     = "Recording stopped. Click Start to begin again."%string /\
     Live.isRecording (Live.startRecording_denied message l) = false).
Proof.
  intros l. split.
  - apply live_stopRecording_stops, live_context_always_there.
  - intros message. unfold Live.startRecording_denied. cbv zeta.
    destruct (live_stopRecording_stops
                (Live.updateStatus ("Error: " ++ message) l))
      as (H1 & _ & _ & _ & H5 & _); [apply live_context_always_there|].
    by split.
Qed.

(** X12: an error hides the status for good: after [onerror] with a
    non-empty message the status line shows that message whatever happens
    next, as long as no other error arrives; nothing ever clears it. *)
Theorem live_error_hides_status
    (es : list Live.Event) (message : string) (l : Live.LiveAudio) :
  message <> ""%string -> Forall Live.not_an_error es ->
  Live.status_line (Live.run es (Live.state_of (Live.onerror message l)))
  = message.
Proof.
  intros Hm Hes.
  assert (forall l0, Live.error (Live.run es l0) = Live.error l0) as Herr.
  { induction es as [|e es IH]; intros l0; [done|].
    apply Forall_cons in Hes as [He Hes]. rewrite live_run_cons, IH by done.
    by apply live_step_error_and_context. }
  unfold Live.status_line. rewrite Herr. unfold Live.onerror.
  destruct (live_avatar_call_fields goIdle (Live.updateError message l))
    as (_ & _ & -> & _). cbn. by rewrite bool_decide_false.
Qed.

Lemma live_error_hides_status_witness :
  Live.status_line
    (Live.run [Live.EvOpen; Live.EvStart; Live.EvGranted; Live.EvStop]
       (Live.state_of (Live.onerror "network down" Live.initial)))
  = "network down"%string.
Proof.
  apply live_error_hides_status; [done|]. by repeat constructor.
Defined.

(** X13: the avatar follows the playback queue: an audio message puts it in
    speak mode; the [ended] listener of a source puts it in idle mode exactly
    when no other source is left playing and leaves it alone otherwise; an
    interruption empties the queue, resets the next start time to 0 and puts
    the avatar in idle mode. *)
Theorem live_avatar_follows_queue (l : Live.LiveAudio) (a : State) :
  Live.avatar l = Some a ->
  (forall t, _mode <$> Live.avatar (Live.state_of (Live.onmessage_audio t l))
             = Some speak) /\
  (forall src,
     (Live.sources l ⊆ {[src]} ->
      _mode <$> Live.avatar (Live.state_of (Live.source_ended src l)) = Some idle /\
      Live.sources (Live.state_of (Live.source_ended src l)) = ∅) /\
     (~ Live.sources l ⊆ {[src]} ->
      Live.avatar (Live.state_of (Live.source_ended src l)) = Some a)) /\
  (Live.sources (Live.state_of (Live.onmessage_interrupted true l)) = ∅ /\
   Live.nextStartTime (Live.state_of (Live.onmessage_interrupted true l)) = 0 /\
   _mode <$> Live.avatar (Live.state_of (Live.onmessage_interrupted true l))
   = Some idle).
Proof.
  intros Ha. split; [|split].
  - intros t. unfold Live.onmessage_audio, Live.avatar_call. rewrite Ha. done.
  - intros src. unfold Live.source_ended, Live.avatar_call. cbv zeta. cbn.
    rewrite Ha. split.
    + intros Hsub.
      assert (Live.sources l ∖ {[src]} = ∅) as -> by set_solver.
      rewrite size_empty, bool_decide_true by done. done.
    + intros Hsub. rewrite bool_decide_false; [done|].
      rewrite size_empty_iff. intros He. apply Hsub.
      intros x Hx. destruct (decide (x = src)) as [->|Hne]; [set_solver|].
      assert (x ∈ Live.sources l ∖ {[src]}) as Hin by set_solver.
      rewrite He in Hin. set_solver.
  - unfold Live.onmessage_interrupted, Live.avatar_call. cbn. rewrite Ha. done.
Qed.

Lemma live_avatar_follows_queue_witness :
  _mode <$> Live.avatar
              (Live.state_of (Live.onmessage_audio 1 (Live.rendered Live.initial)))
  = Some speak.
Proof.
  apply (proj1 (live_avatar_follows_queue (Live.rendered Live.initial)
                  avatar_created eq_refl)).
Defined.

(** * The robot viewer: clips, cross-fades and listeners *)

Lemma robot_plays_once_iff (n : string) :
  Robot.plays_once n = true <->
  n ∈ ["Jump"; "Yes"; "No"; "Wave"; "Punch"; "ThumbsUp";
       "Death"; "Sitting"; "Standing"]%string.
Proof.
  unfold Robot.plays_once, Robot.includes, Robot.emotes, Robot.states.
  split.
  - intros H. apply orb_true_iff in H as [H | H].
    + apply bool_decide_eq_true in H.
      rewrite !elem_of_cons in *. tauto.
    + cbn [Robot.indexOf] in H. rewrite !elem_of_cons.
      repeat case_bool_decide; subst; cbn in H; try done; tauto.
  - intros H.
    repeat (apply elem_of_cons in H as [-> | H]); try done;
      by inversion H.
Qed.

Lemma robot_last_index_lookup (l : list string) (n : string) (j : nat) :
  Robot.last_index l n = Some j -> l !! j = Some n.
Proof.
  revert j. induction l as [| m l IH]; intros j; cbn; [done |].
  destruct (Robot.last_index l n) as [k |].
  - intros [= <-]. cbn. by apply IH.
  - case_bool_decide; [| done]. intros [= <-]. cbn. by subst.
Qed.

Lemma robot_last_index_none (l : list string) (n : string) :
  Robot.last_index l n = None <-> n ∉ l.
Proof.
  induction l as [| m l IH]; cbn.
  - split; [| done]. intros _. apply not_elem_of_nil.
  - rewrite not_elem_of_cons. destruct (Robot.last_index l n) as [k |].
    + split; [done |]. intros [_ H]. by apply IH in H.
    + case_bool_decide; subst; split; try done.
      * intros [H' _]. done.
      * intros _. split; [done |]. by apply IH.
Qed.

Lemma robot_actions_add_clips (l : list string) (s : Robot.Avatar3D) (i0 : nat)
    (n : string) :
  Robot.actions (Robot.add_clips s i0 l) !! n =
  match Robot.last_index l n with
  | Some j => Some (i0 + j)%nat
  | None => Robot.actions s !! n
  end.
Proof.
  revert s i0. induction l as [| m l IH]; intros s i0; cbn; [done |].
  rewrite IH. destruct (Robot.last_index l n) as [j |].
  - f_equal. lia.
  - cbn. case_bool_decide; subst.
    + rewrite lookup_insert_eq. f_equal. lia.
    + by rewrite lookup_insert_ne.
Qed.

Lemma robot_once_add_clips (l : list string) (s : Robot.Avatar3D) (i0 i : nat) :
  i ∈ Robot.once (Robot.add_clips s i0 l) <->
  i ∈ Robot.once s \/
  exists j n, i = (i0 + j)%nat /\ l !! j = Some n /\ Robot.plays_once n = true.
Proof.
  revert s i0. induction l as [| m l IH]; intros s i0; cbn.
  - split; [by left |]. intros [H | (j & n & _ & H & _)]; done.
  - rewrite IH. cbn. split.
    + intros [H | (j & n & -> & Hj & Hn)].
      * destruct (Robot.plays_once m) eqn:Hm; [| by left].
        apply elem_of_union in H as [H | H]; [| by left].
        apply elem_of_singleton in H as ->. right. exists 0%nat, m.
        split; [lia | done].
      * right. exists (S j), n. split; [lia | done].
    + intros [H | (j & n & -> & Hj & Hn)].
      * left. destruct (Robot.plays_once m); [| done].
        apply elem_of_union. by right.
      * destruct j as [| j]; cbn in Hj.
        -- injection Hj as ->. left. rewrite Hn. replace (i0 + 0)%nat with i0 by lia.
           apply elem_of_union. left. by apply elem_of_singleton.
        -- right. exists j, n. split; [lia | done].
Qed.

Lemma robot_add_clips_rest (l : list string) (s : Robot.Avatar3D) (i0 : nat) :
  Robot.activeAction (Robot.add_clips s i0 l) = Robot.activeAction s /\
  Robot.previousAction (Robot.add_clips s i0 l) = Robot.previousAction s /\
  Robot.api_state (Robot.add_clips s i0 l) = Robot.api_state s /\
  Robot.listeners (Robot.add_clips s i0 l) = Robot.listeners s /\
  Robot.bound (Robot.add_clips s i0 l) = Robot.bound s /\
  Robot.calls (Robot.add_clips s i0 l) = Robot.calls s.
Proof.
  revert s i0. induction l as [| m l IH]; intros s i0; cbn; [done |].
  destruct (IH (Robot.add_clip s i0 m) (S i0)) as (-> & -> & -> & -> & -> & ->).
  done.
Qed.

Lemma robot_createGUI_fields (animations : list string) :
  let s := Robot.state_of (Robot.createGUI animations Robot.initial) in
  (forall n, Robot.actions s !! n = Robot.last_index animations n) /\
  Robot.activeAction s = Robot.last_index animations "Walking" /\
  Robot.api_state s = "Walking"%string /\
  Robot.listeners s = [] /\
  Robot.bound s = 0%nat /\
  (forall i, i ∈ Robot.once s <->
     exists n, animations !! i = Some n /\ Robot.plays_once n = true).
Proof.
  cbn zeta. unfold Robot.createGUI. cbn [Robot.activeAction].
  pose proof (robot_actions_add_clips animations Robot.initial 0) as Ha.
  pose proof (robot_once_add_clips animations Robot.initial 0) as Ho.
  destruct (robot_add_clips_rest animations Robot.initial 0)
    as (_ & _ & Hst & Hl & Hb & _).
  assert (Hact : forall n,
    Robot.actions (Robot.add_clips Robot.initial 0 animations) !! n =
    Robot.last_index animations n).
  { intros n. rewrite Ha. destruct (Robot.last_index animations n); [done |].
    cbn. apply lookup_empty. }
  assert (Honce : forall i,
    i ∈ Robot.once (Robot.add_clips Robot.initial 0 animations) <->
    exists n, animations !! i = Some n /\ Robot.plays_once n = true).
  { intros i. rewrite Ho. cbn. split.
    - intros [H | (j & n & -> & H)]; [by apply not_elem_of_empty in H |].
      by exists n.
    - intros (n & H). right. by exists i, n. }
  destruct (Robot.actions (Robot.add_clips Robot.initial 0 animations) !! "Walking"%string)
    eqn:E; cbn; rewrite <- ?E, ?Hact; repeat split; try done; try apply Honce.
Qed.

Lemma robot_fadeToAction_fields (name : string) (d : R) (s : Robot.Avatar3D) :
  let s' := Robot.state_of (Robot.fadeToAction name d s) in
  Robot.actions s' = Robot.actions s /\
  Robot.once s' = Robot.once s /\
  Robot.activeAction s' = Robot.actions s !! name /\
  Robot.previousAction s' = Robot.activeAction s /\
  Robot.api_state s' = Robot.api_state s /\
  Robot.listeners s' = Robot.listeners s /\
  Robot.bound s' = Robot.bound s.
Proof.
  cbn zeta. unfold Robot.fadeToAction.
  cbn [Robot.activeAction Robot.previousAction].
  case_bool_decide.
  - destruct (Robot.actions s !! name) eqn:E; cbn; rewrite ?E; done.
  - destruct (Robot.activeAction s) eqn:Ep; cbn; [| done].
    destruct (Robot.actions s !! name) eqn:E; cbn; done.
Qed.

Lemma robot_fadeToAction_ok (name : string) (d : R) (s : Robot.Avatar3D)
    (p a : nat) :
  Robot.activeAction s = Some p ->
  Robot.actions s !! name = Some a ->
  exists s', Robot.fadeToAction name d s = Robot.Ok s' /\
    Robot.calls s' =
      Robot.calls s ++
      (if bool_decide (p = a) then [] else [Robot.FadeOut p d]) ++
      [Robot.Reset a; Robot.SetEffectiveTimeScale a 1;
       Robot.SetEffectiveWeight a 1; Robot.FadeIn a d; Robot.Play a].
Proof.
  intros Hp Ha. unfold Robot.fadeToAction.
  cbn [Robot.activeAction Robot.previousAction]. rewrite Hp, Ha.
  case_bool_decide as E.
  - injection E as ->. cbn. eexists. split; [done |]. cbn.
    by rewrite bool_decide_true.
  - cbn. eexists. split; [done |]. cbn.
    rewrite bool_decide_false by congruence. by rewrite <- app_assoc.
Qed.

Lemma robot_fadeToAction_throws (name : string) (d : R) (s : Robot.Avatar3D) :
  Robot.actions s !! name = None \/ Robot.activeAction s = None ->
  exists s', Robot.fadeToAction name d s = Robot.Throws s'.
Proof.
  intros H. unfold Robot.fadeToAction.
  cbn [Robot.activeAction Robot.previousAction].
  case_bool_decide as E.
  - destruct H as [H | H].
    + cbn. rewrite H. by eexists.
    + rewrite H in E. cbn. rewrite <- E. by eexists.
  - destruct (Robot.activeAction s) eqn:Ep.
    + destruct H as [H | H]; [| done]. cbn. rewrite H. by eexists.
    + by eexists.
Qed.

Lemma robot_remove_first_absent (f : nat) (l : list nat) :
  f ∉ l -> Robot.remove_first f l = l.
Proof.
  induction l as [| g l IH]; cbn; [done |].
  rewrite not_elem_of_cons. intros [Hg Hl].
  rewrite bool_decide_false by done. by rewrite IH.
Qed.

Lemma robot_bound_fresh (s : Robot.Avatar3D) :
  Robot.listeners_bound s -> Robot.bound s ∉ Robot.listeners s.
Proof.
  unfold Robot.listeners_bound. rewrite Forall_forall. intros H Hin.
  apply H in Hin. lia.
Qed.

Lemma robot_fade_inv (name : string) (d : R) (s : Robot.Avatar3D) :
  Robot.ready s -> name ∈ Robot.states ++ Robot.emotes ->
  exists s', Robot.fadeToAction name d s = Robot.Ok s' /\ Robot.ready s' /\
    Robot.listeners s' = Robot.listeners s /\
    Robot.bound s' = Robot.bound s /\
    Robot.api_state s' = Robot.api_state s /\
    Robot.actions s' = Robot.actions s.
Proof.
  intros (Hb & [p Hp] & Hk & Hst) Hn.
  destruct (Hk name Hn) as [a Ha].
  destruct (robot_fadeToAction_ok name d s p a Hp Ha) as (s' & E & _).
  pose proof (robot_fadeToAction_fields name d s) as F.
  cbn zeta in F. rewrite E in F. cbn [Robot.state_of] in F.
  destruct F as (F1 & _ & F3 & _ & F5 & F6 & F7).
  exists s'. split; [done |]. repeat split; try done.
  - unfold Robot.listeners_bound. rewrite F6, F7. exact Hb.
  - rewrite F3, Ha. by eexists.
  - intros n Hin. rewrite F1. by apply Hk.
  - by rewrite F5.
Qed.

Lemma robot_restoreState_inv (s : Robot.Avatar3D) :
  Robot.ready s ->
  exists s', Robot.restoreState s = Robot.Ok s' /\ Robot.ready s' /\
    Robot.listeners s' = Robot.listeners s /\
    Robot.api_state s' = Robot.api_state s /\
    Robot.actions s' = Robot.actions s.
Proof.
  intros Hi. unfold Robot.restoreState, Robot.bind, Robot.removeEventListener.
  cbn [Robot.listeners Robot.bound Robot.api_state Robot.actions Robot.once
       Robot.activeAction Robot.previousAction Robot.calls].
  rewrite robot_remove_first_absent by (apply robot_bound_fresh, Hi).
  match goal with |- exists s', Robot.fadeToAction _ _ ?t = _ /\ _ =>
    assert (Ht : Robot.ready t) end.
  { destruct Hi as (Hb & Hp & Hk & Hst). repeat split; try done.
    unfold Robot.listeners_bound in *. cbn.
    eapply Forall_impl; [exact Hb |]. cbn. lia. }
  destruct (robot_fade_inv (Robot.api_state s) 0.2 _ Ht) as (s' & E & Hi' & F).
  { apply elem_of_app. left. apply Hi. }
  exists s'. split; [exact E |]. split; [exact Hi' |].
  destruct F as (-> & _ & -> & ->). done.
Qed.

Lemma robot_dispatch_inv (k : nat) (s : Robot.Avatar3D) :
  Robot.ready s ->
  exists s', Robot.dispatch_finished k s = Robot.Ok s' /\ Robot.ready s' /\
    Robot.listeners s' = Robot.listeners s /\
    Robot.api_state s' = Robot.api_state s /\
    Robot.actions s' = Robot.actions s.
Proof.
  revert s. induction k as [| k IH]; intros s Hi; cbn [Robot.dispatch_finished].
  - by exists s.
  - destruct (robot_restoreState_inv s Hi) as (s1 & -> & Hi1 & F1 & F2 & F3).
    destruct (IH s1 Hi1) as (s2 & E & Hi2 & G1 & G2 & G3).
    exists s2. rewrite E, G1, G2, G3, F1, F2, F3. done.
Qed.

Lemma robot_emote_inv (name : string) (s : Robot.Avatar3D) :
  Robot.ready s -> name ∈ Robot.emotes ->
  exists s', Robot.emote name s = Robot.Ok s' /\ Robot.ready s' /\
    Robot.listeners s' = Robot.listeners s ++ [Robot.bound s].
Proof.
  intros Hi Hn. unfold Robot.emote.
  destruct (robot_fade_inv name 0.2 s Hi) as (s1 & -> & Hi1 & F1 & F2 & F3 & F4).
  { apply elem_of_app. by right. }
  unfold Robot.bind, Robot.addEventListener.
  cbn [Robot.listeners Robot.bound Robot.api_state Robot.actions Robot.once
       Robot.activeAction Robot.previousAction Robot.calls].
  rewrite bool_decide_false by (apply robot_bound_fresh, Hi1).
  eexists. split; [done |]. cbn. rewrite F1, F2. split; [| done].
  destruct Hi1 as (Hb & Hp & Hk & Hst). repeat split; try done.
  unfold Robot.listeners_bound in *. cbn. rewrite F1, F2 in *.
  apply Forall_app. split.
  - eapply Forall_impl; [exact Hb |]. cbn. lia.
  - apply Forall_singleton. lia.
Qed.

Lemma robot_state_changed_inv (name : string) (s : Robot.Avatar3D) :
  Robot.ready s -> name ∈ Robot.states ->
  exists s', Robot.state_changed name s = Robot.Ok s' /\ Robot.ready s' /\
    Robot.listeners s' = Robot.listeners s.
Proof.
  intros Hi Hn. unfold Robot.state_changed. cbn [Robot.api_state].
  match goal with |- exists s', Robot.fadeToAction _ _ ?t = _ /\ _ =>
    assert (Ht : Robot.ready t) end.
  { destruct Hi as (Hb & Hp & Hk & Hst). repeat split; done. }
  destruct (robot_fade_inv name 0.5 _ Ht) as (s' & E & Hi' & F & _).
  { apply elem_of_app. by left. }
  exists s'. done.
Qed.

Lemma robot_handle_inv (e : Robot.Event) (s : Robot.Avatar3D) :
  Robot.ready s -> Robot.offered e ->
  exists s', Robot.handle e s = Robot.Ok s' /\ Robot.ready s' /\
    length (Robot.listeners s') =
    (length (Robot.listeners s) + (if Robot.is_emote e then 1 else 0))%nat.
Proof.
  intros Hi He. destruct e as [n | n |]; cbn in *.
  - destruct (robot_state_changed_inv n s Hi He) as (s' & E & Hi' & F).
    exists s'. rewrite F. split; [done |]. split; [done | lia].
  - destruct (robot_emote_inv n s Hi He) as (s' & E & Hi' & F).
    exists s'. rewrite F, length_app. done.
  - destruct (robot_dispatch_inv (length (Robot.listeners s)) s Hi)
      as (s' & E & Hi' & F & _).
    exists s'. rewrite F. split; [done |]. split; [done | lia].
Qed.

Lemma robot_run_inv (es : list Robot.Event) (s : Robot.Avatar3D) :
  Robot.ready s -> Forall Robot.offered es ->
  Robot.never_throws es s /\ Robot.ready (Robot.run es s) /\
  length (Robot.listeners (Robot.run es s)) =
  (length (Robot.listeners s) + Robot.emote_clicks es)%nat.
Proof.
  revert s. induction es as [| e es IH]; intros s Hi Ho.
  - cbn. split; [done |]. split; [done |]. unfold Robot.emote_clicks. cbn. lia.
  - apply Forall_cons in Ho as [He Ho].
    destruct (robot_handle_inv e s Hi He) as (s' & E & Hi' & F).
    change (Robot.run (e :: es) s) with (Robot.run es (Robot.step e s)).
    cbn [Robot.never_throws].
    unfold Robot.step. rewrite E. cbn [Robot.state_of].
    destruct (IH s' Hi' Ho) as (H1 & H2 & H3).
    split; [split; [by exists s' | done] |]. split; [done |].
    rewrite H3, F. unfold Robot.emote_clicks.
    rewrite filter_cons. destruct (Robot.is_emote e); cbn.
    + rewrite decide_True by done. cbn. lia.
    + rewrite decide_False by done. lia.
Qed.

Lemma robot_createGUI_cases (animations : list string) :
  match Robot.last_index animations "Walking" with
  | Some i =>
    exists s, Robot.createGUI animations Robot.initial = Robot.Ok s /\
      Robot.calls s = [Robot.Play i]
  | None => exists s, Robot.createGUI animations Robot.initial = Robot.Throws s
  end.
Proof.
  unfold Robot.createGUI. cbn [Robot.activeAction].
  rewrite robot_actions_add_clips.
  destruct (robot_add_clips_rest animations Robot.initial 0)
    as (_ & _ & _ & _ & _ & Hc).
  destruct (Robot.last_index animations "Walking") as [i |].
  - eexists. split; [done |]. cbn. by rewrite Hc.
  - cbn. rewrite lookup_empty. by eexists.
Qed.

Lemma robot_createGUI_inv (animations : list string) :
  (forall n, n ∈ Robot.states ++ Robot.emotes -> n ∈ animations) ->
  exists s, Robot.createGUI animations Robot.initial = Robot.Ok s /\
    Robot.ready s /\ Robot.listeners s = [].
Proof.
  intros Hk.
  pose proof (robot_createGUI_fields animations) as F. cbn zeta in F.
  destruct F as (Fa & Fact & Fst & Fl & Fb & _).
  pose proof (robot_createGUI_cases animations) as C.
  destruct (Robot.last_index animations "Walking") as [i |] eqn:Ew.
  - destruct C as (s & E & _). rewrite E in *. cbn [Robot.state_of] in *.
    exists s. split; [done |]. split; [| done].
    repeat split.
    + unfold Robot.listeners_bound. rewrite Fl. apply Forall_nil_2.
    + by rewrite Fact.
    + intros n Hn. rewrite Fa.
      destruct (Robot.last_index animations n) eqn:E'; [by eexists |].
      apply robot_last_index_none in E'. exfalso. by apply E', Hk.
    + rewrite Fst. unfold Robot.states. apply list_elem_of_lookup.
      by exists 1%nat.
  - apply robot_last_index_none in Ew. exfalso. apply Ew, Hk.
    apply list_elem_of_lookup. by exists 1%nat.
Qed.
Lemma robot_resets_app (a : nat) (cs ds : list Robot.Call) :
  Robot.resets a (cs ++ ds) = (Robot.resets a cs + Robot.resets a ds)%nat.
Proof.
  unfold Robot.resets. by rewrite filter_app, length_app.
Qed.

Lemma robot_restoreState_resets (s : Robot.Avatar3D) (p a : nat) :
  Robot.listeners_bound s ->
  Robot.activeAction s = Some p ->
  Robot.actions s !! Robot.api_state s = Some a ->
  exists s', Robot.restoreState s = Robot.Ok s' /\
    Robot.listeners_bound s' /\
    Robot.activeAction s' = Some a /\
    Robot.actions s' = Robot.actions s /\
    Robot.api_state s' = Robot.api_state s /\
    Robot.listeners s' = Robot.listeners s /\
    Robot.resets a (Robot.calls s') = S (Robot.resets a (Robot.calls s)).
Proof.
  intros Hb Hp Ha. unfold Robot.restoreState, Robot.bind, Robot.removeEventListener.
  cbn [Robot.listeners Robot.bound Robot.api_state Robot.actions Robot.once
       Robot.activeAction Robot.previousAction Robot.calls].
  rewrite robot_remove_first_absent by by apply robot_bound_fresh.
  match goal with |- exists s', Robot.fadeToAction ?n ?d ?t = _ /\ _ =>
    destruct (robot_fadeToAction_ok n d t p a Hp Ha) as (s' & E & Hc);
    pose proof (robot_fadeToAction_fields n d t) as F
  end.
  cbn zeta in F. rewrite E in F. cbn [Robot.state_of] in F.
  cbn [Robot.listeners Robot.bound Robot.api_state Robot.actions Robot.once
       Robot.activeAction Robot.previousAction Robot.calls] in F, Hc.
  destruct F as (F1 & _ & F3 & _ & F5 & F6 & F7).
  exists s'. split; [exact E |]. repeat split; try done.
  - unfold Robot.listeners_bound in *. rewrite F6, F7.
    eapply Forall_impl; [exact Hb |]. cbn. lia.
  - by rewrite F3.
  - rewrite Hc, !robot_resets_app.
    assert (R1 : Robot.resets a
      (if bool_decide (p = a) then [] else [Robot.FadeOut p 0.2]) = 0%nat)
      by by case_bool_decide.
    rewrite R1. unfold Robot.resets at 2. cbn.
    rewrite (bool_decide_true (a = a)) by done.
    rewrite decide_True by done. rewrite !decide_False by done. cbn. lia.
Qed.

Lemma robot_dispatch_resets (k : nat) (s : Robot.Avatar3D) (p a : nat) :
  Robot.listeners_bound s ->
  Robot.activeAction s = Some p ->
  Robot.actions s !! Robot.api_state s = Some a ->
  exists s', Robot.dispatch_finished k s = Robot.Ok s' /\
    Robot.listeners s' = Robot.listeners s /\
    Robot.resets a (Robot.calls s') = (Robot.resets a (Robot.calls s) + k)%nat.
Proof.
  revert s p. induction k as [| k IH]; intros s p Hb Hp Ha;
    cbn [Robot.dispatch_finished].
  - exists s. split; [done |]. split; [done | lia].
  - destruct (robot_restoreState_resets s p a Hb Hp Ha)
      as (s1 & -> & Hb1 & Hp1 & Ha1 & Hs1 & Hl1 & Hr1).
    destruct (IH s1 a Hb1 Hp1) as (s2 & E & Hl2 & Hr2).
    { by rewrite Ha1, Hs1. }
    exists s2. split; [done |]. rewrite Hl2, Hr2, Hl1, Hr1. split; [done | lia].
Qed.

Lemma robot_panel_names_in_clips (n : string) :
  n ∈ Robot.states ++ Robot.emotes -> n ∈ Robot.robot_clips.
Proof.
  unfold Robot.states, Robot.emotes, Robot.robot_clips. cbn [app].
  rewrite !elem_of_cons. intros H. tauto.
Qed.

(** X14 ([createGUI], the loop over the clips): a loaded clip is clamped and
    played once exactly when it is called after one of the six emotes or
    after Death, Sitting or Standing; Idle, Walking, Running, Dance and a
    clip of any other name keep looping. *)
Theorem robot_clips_played_once (animations : list string) (i : nat) (n : string) :
  animations !! i = Some n ->
  i ∈ Robot.once (Robot.state_of (Robot.createGUI animations Robot.initial)) <->
  n ∈ ["Jump"; "Yes"; "No"; "Wave"; "Punch"; "ThumbsUp";
       "Death"; "Sitting"; "Standing"]%string.
Proof.
  intros Hi.
  destruct (robot_createGUI_fields animations) as (_ & _ & _ & _ & _ & Ho).
  rewrite Ho, <- robot_plays_once_iff. split.
  - intros (m & Hm & Hp). congruence.
  - intros Hp. by exists n.
Qed.

Lemma robot_clips_played_once_witness :
  7%nat ∈ Robot.once
    (Robot.state_of (Robot.createGUI Robot.robot_clips Robot.initial)) <->
  "Sitting"%string ∈ ["Jump"; "Yes"; "No"; "Wave"; "Punch"; "ThumbsUp";
       "Death"; "Sitting"; "Standing"]%string.
Proof.
  apply (robot_clips_played_once Robot.robot_clips 7 "Sitting"). reflexivity.
Defined.

(** X15 ([createGUI], the actions and the initial action): building the
    panel throws exactly when no clip is called Walking.  Otherwise every
    name stands for the last clip of that name, the last clip called Walking
    becomes the active action and is the only one started. *)
Theorem robot_createGUI_starts_walking (animations : list string) :
  match Robot.createGUI animations Robot.initial with
  | Robot.Ok s =>
    exists i, Robot.last_index animations "Walking" = Some i /\
      Robot.activeAction s = Some i /\
      Robot.calls s = [Robot.Play i] /\
      forall n, Robot.actions s !! n = Robot.last_index animations n
  | Robot.Throws s => "Walking"%string ∉ animations
  end.
Proof.
  pose proof (robot_createGUI_fields animations) as F. cbn zeta in F.
  destruct F as (Fa & Fact & _).
  pose proof (robot_createGUI_cases animations) as C.
  destruct (Robot.last_index animations "Walking") as [i |] eqn:Ew.
  - destruct C as (s & E & Hc). rewrite E in *. cbn [Robot.state_of] in *.
    by exists i.
  - destruct C as (s & E). rewrite E. by apply robot_last_index_none.
Qed.

(** X16 ([fadeToAction]): a cross-fade throws exactly when the name has no
    clip or no action is active, and it has then already replaced the active
    action by the lookup of the name.  Otherwise it fades the active action
    out unless that is the one asked for, and then resets, fades in and plays
    the action of the name. *)
Theorem robot_fade_throws_iff (name : string) (d : R) (s : Robot.Avatar3D) :
  match Robot.fadeToAction name d s with
  | Robot.Ok s' =>
    exists p a, Robot.activeAction s = Some p /\
      Robot.actions s !! name = Some a /\
      Robot.activeAction s' = Some a /\
      Robot.calls s' =
        Robot.calls s ++
        (if bool_decide (p = a) then [] else [Robot.FadeOut p d]) ++
        [Robot.Reset a; Robot.SetEffectiveTimeScale a 1;
         Robot.SetEffectiveWeight a 1; Robot.FadeIn a d; Robot.Play a]
  | Robot.Throws s' =>
    (Robot.actions s !! name = None \/ Robot.activeAction s = None) /\
    Robot.activeAction s' = Robot.actions s !! name
  end.
Proof.
  pose proof (robot_fadeToAction_fields name d s) as F. cbn zeta in F.
  destruct F as (_ & _ & F3 & _).
  destruct (Robot.activeAction s) as [p |] eqn:Hp;
    destruct (Robot.actions s !! name) as [a |] eqn:Ha.
  - destruct (robot_fadeToAction_ok name d s p a Hp Ha) as (s' & E & Hc).
    rewrite E in *. cbn [Robot.state_of] in F3. by exists p, a.
  - destruct (robot_fadeToAction_throws name d s) as (s' & E); [by left |].
    rewrite E in *. cbn [Robot.state_of] in F3. split; [by left | done].
  - destruct (robot_fadeToAction_throws name d s) as (s' & E); [by right |].
    rewrite E in *. cbn [Robot.state_of] in F3. split; [by right | done].
  - destruct (robot_fadeToAction_throws name d s) as (s' & E); [by left |].
    rewrite E in *. cbn [Robot.state_of] in F3. split; [by left | done].
Qed.

(** X17 ([fadeToAction], twice): a cross-fade to a name without a clip not
    only throws, it leaves no active action, so that the next cross-fade
    throws as well, whatever it is asked for. *)
Theorem robot_unknown_name_breaks_next_fade (name : string) (d : R)
    (s : Robot.Avatar3D) :
  Robot.actions s !! name = None ->
  forall name' d',
    exists s1 s2, Robot.fadeToAction name d s = Robot.Throws s1 /\
      Robot.fadeToAction name' d' s1 = Robot.Throws s2.
Proof.
  intros Hn name' d'.
  destruct (robot_fadeToAction_throws name d s) as (s1 & E); [by left |].
  pose proof (robot_fadeToAction_fields name d s) as F. cbn zeta in F.
  rewrite E in F. cbn [Robot.state_of] in F. destruct F as (_ & _ & F3 & _).
  destruct (robot_fadeToAction_throws name' d' s1) as (s2 & E2).
  { right. by rewrite F3. }
  by exists s1, s2.
Qed.

Lemma robot_unknown_name_breaks_next_fade_witness :
  exists s1 s2,
    Robot.fadeToAction "Fly" 0.5
      (Robot.state_of (Robot.createGUI Robot.robot_clips Robot.initial)) =
      Robot.Throws s1 /\
    Robot.fadeToAction "Idle" 0.5 s1 = Robot.Throws s2.
Proof.
  refine (robot_unknown_name_breaks_next_fade "Fly" 0.5
            (Robot.state_of (Robot.createGUI Robot.robot_clips Robot.initial))
            _ "Idle" 0.5).
  destruct (robot_createGUI_fields Robot.robot_clips) as (Fa & _).
  rewrite Fa. reflexivity.
Defined.

(** X18 (the panel as a whole): when the loaded model has a clip for every
    state of the menu and every emote button, building the panel succeeds
    and no choice in the menu, no emote button and no [finished] event ever
    throws afterwards. *)
Theorem robot_panel_never_throws (animations : list string) :
  (forall n, n ∈ Robot.states ++ Robot.emotes -> n ∈ animations) ->
  exists s, Robot.createGUI animations Robot.initial = Robot.Ok s /\
    forall es, Forall Robot.offered es -> Robot.never_throws es s.
Proof.
  intros Hk. destruct (robot_createGUI_inv animations Hk) as (s & E & Hi & _).
  exists s. split; [done |]. intros es Ho.
  by destruct (robot_run_inv es s Hi Ho).
Qed.

Lemma robot_panel_never_throws_witness :
  exists s, Robot.createGUI Robot.robot_clips Robot.initial = Robot.Ok s /\
    forall es, Forall Robot.offered es -> Robot.never_throws es s.
Proof.
  apply (robot_panel_never_throws Robot.robot_clips).
  exact robot_panel_names_in_clips.
Defined.

(** X19 ([restoreState] and the emote callback): [restoreState] removes a
    function [bind] has just made, which is no registered listener, so that
    no listener ever goes: with a clip for every name of the panel, the
    mixer has as many [finished] listeners as emote buttons were pressed. *)
Theorem robot_finished_listeners_pile_up (animations : list string)
    (es : list Robot.Event) :
  (forall n, n ∈ Robot.states ++ Robot.emotes -> n ∈ animations) ->
  Forall Robot.offered es ->
  length (Robot.listeners
            (Robot.run es
               (Robot.state_of (Robot.createGUI animations Robot.initial)))) =
  Robot.emote_clicks es.
Proof.
  intros Hk Ho. destruct (robot_createGUI_inv animations Hk) as (s & E & Hi & Hl).
  rewrite E. cbn [Robot.state_of].
  destruct (robot_run_inv es s Hi Ho) as (_ & _ & ->). by rewrite Hl.
Qed.

Lemma robot_finished_listeners_pile_up_witness :
  length (Robot.listeners
            (Robot.run [Robot.EvEmote "Wave"; Robot.EvFinished;
                        Robot.EvEmote "Jump"; Robot.EvFinished]
               (Robot.state_of (Robot.createGUI Robot.robot_clips Robot.initial)))) =
  Robot.emote_clicks [Robot.EvEmote "Wave"; Robot.EvFinished;
                      Robot.EvEmote "Jump"; Robot.EvFinished].
Proof.
  apply (robot_finished_listeners_pile_up Robot.robot_clips).
  - exact robot_panel_names_in_clips.
  - repeat first [apply Forall_nil_2 | apply Forall_cons_2]; cbn; try done;
      unfold Robot.emotes; rewrite !elem_of_cons; tauto.
Defined.

(** X20 (a [finished] event): every registered listener is a
    [restoreState], so one [finished] event restarts the action of the
    selected state once for each listener. *)
Theorem robot_finished_restarts_per_listener (s : Robot.Avatar3D) (p a : nat) :
  Robot.listeners_bound s ->
  Robot.activeAction s = Some p ->
  Robot.actions s !! Robot.api_state s = Some a ->
  Robot.resets a (Robot.calls (Robot.step Robot.EvFinished s)) =
  (Robot.resets a (Robot.calls s) + length (Robot.listeners s))%nat.
Proof.
  intros Hb Hp Ha. unfold Robot.step. cbn [Robot.handle].
  destruct (robot_dispatch_resets (length (Robot.listeners s)) s p a Hb Hp Ha)
    as (s' & -> & _ & Hr).
  exact Hr.
Qed.

Lemma robot_finished_restarts_per_listener_witness :
  let s := Robot.run [Robot.EvEmote "Wave"; Robot.EvEmote "Jump"]
             (Robot.state_of (Robot.createGUI Robot.robot_clips Robot.initial)) in
  Robot.resets 10 (Robot.calls (Robot.step Robot.EvFinished s)) =
  (Robot.resets 10 (Robot.calls s) + 2)%nat.
Proof.
  intros s.
  apply (robot_finished_restarts_per_listener s 3 10).
  - unfold Robot.listeners_bound. vm_compute. repeat constructor.
  - vm_compute. reflexivity.
  - vm_compute. reflexivity.
Defined.

(** * The ears *)










Lemma scale_step_keeps_pose i s s' :
  (exists F, node i s' = F <$> node i s /\ keeps_pose F) -> scale_step i s s'.
Proof.
  intros (F & HF & HkF). exists F. split; [done |].
  intros c. by destruct (pose_fields _ _ (HkF c)) as (_ & _ & ->).
Qed.









